(** * Kairos automation runtime: session pool, retry primitive, fan-out and
      operation recorder

    A shallow embedding of
      - [tv/core/session_manager.py]   (module [SessionManager]),
      - [tv/utils/timing_utils.py]     (module [TimingUtils]),
      - [tv/core/async_browser.py]     (module [AsyncBrowser]),
      - [tv/core/performance_monitor.py] (module [PerformanceMonitor]),
    together with the properties of the runtime specification that concern
    them.

    Conventions of the embedding.
      - Python objects that are shared and mutated (the [BrowserSession]
        records) live in an explicit object store; a reference is the index
        of the object in the store, so two references are equal exactly when
        they denote the same object.
      - Counts and sizes read from the configuration are natural numbers.
      - [datetime] values are microseconds on one clock, [timedelta] values
        are microseconds; the clock only advances when the code sleeps or
        when the environment lets time pass.
      - Python [float] durations of the timing and recorder modules are
        idealised as exact rationals.
      - A code block run under a lock is one atomic transition. *)

From Stdlib Require Import ZArith QArith Qminmax Ascii Sorted.
From stdpp Require Import gmap strings list fin_maps relations pretty.

Local Open Scope Z_scope.
Local Set Warnings "-clear-no-such-hyp,-abstract-large-number".

(** ** Python values, exceptions and configuration dictionaries *)

Inductive PyValue :=
  | PyBool (b : bool)
  | PyInt (n : nat)
  | PyStr (s : string).

(** Truth value of an object in a boolean context. *)
Definition truthy (v : PyValue) : bool :=
  match v with
  | PyBool b => b
  | PyInt n => negb (Nat.eqb n 0)
  | PyStr s => negb (String.eqb s "")
  end.

(** The exceptions that the modelled code raises or lets through. *)
Inductive PyException :=
  | RuntimeError (msg : string)
  | TypeError (msg : string)
  | TimeoutException
  | WebDriverException (msg : string).

(** The result of a call: a returned value or a raised exception. *)
Inductive outcome (A : Type) :=
  | Value (a : A)
  | Exc (e : PyException).
Arguments Value {A} a.
Arguments Exc {A} e.

(** [Dict[str, Any]] configuration. *)
Abbreviation Config := (gmap string PyValue).

(** [config.get(key, default)] for an integer option (a string where a
    number is expected is outside the model and reads as the default). *)
Definition config_get_int (config : Config) (key : string) (default : nat) : nat :=
  match config !! key with
  | Some (PyInt n) => n
  | Some (PyBool b) => if b then 1%nat else 0%nat
  | _ => default
  end.

(** [config.get(key, default)] used in a boolean context. *)
Definition config_get_bool (config : Config) (key : string) (default : bool) : bool :=
  match config !! key with
  | Some v => truthy v
  | None => default
  end.

(** ** tv/core/session_manager.py *)

Module SessionManager.

(** A driven browser instance, identified by its handle. *)
Abbreviation WebDriver := nat.

Abbreviation datetime := Z.
Abbreviation timedelta := Z.

Definition timedelta_hours (h : nat) : timedelta := Z.of_nat h * 3600000000.
Definition timedelta_minutes (m : nat) : timedelta := Z.of_nat m * 60000000.

(** [@dataclass BrowserSession] *)
Record BrowserSession := mkBrowserSession {
  browser : WebDriver;
  session_id : string;
  created_at : datetime;
  last_used : datetime;
  is_authenticated : bool;
  username : option string;
  usage_count : nat;
  is_busy : bool;
  error_count : nat;
  max_errors : nat
}.

Definition is_expired (now : datetime) (s : BrowserSession) (max_age : timedelta) : bool :=
  max_age <? now - created_at s.

Definition is_idle (now : datetime) (s : BrowserSession) (max_idle : timedelta) : bool :=
  max_idle <? now - last_used s.

Definition is_healthy (s : BrowserSession) : bool :=
  (error_count s <? max_errors s)%nat.

Definition mark_used (now : datetime) (s : BrowserSession) : BrowserSession :=
  {| browser := browser s; session_id := session_id s;
     created_at := created_at s; last_used := now;
     is_authenticated := is_authenticated s; username := username s;
     usage_count := S (usage_count s); is_busy := is_busy s;
     error_count := error_count s; max_errors := max_errors s |}.

Definition mark_error (s : BrowserSession) : BrowserSession :=
  {| browser := browser s; session_id := session_id s;
     created_at := created_at s; last_used := last_used s;
     is_authenticated := is_authenticated s; username := username s;
     usage_count := usage_count s; is_busy := is_busy s;
     error_count := S (error_count s); max_errors := max_errors s |}.

(** The assignment [session.is_busy = b]. *)
Definition set_busy (b : bool) (s : BrowserSession) : BrowserSession :=
  {| browser := browser s; session_id := session_id s;
     created_at := created_at s; last_used := last_used s;
     is_authenticated := is_authenticated s; username := username s;
     usage_count := usage_count s; is_busy := b;
     error_count := error_count s; max_errors := max_errors s |}.

(** The assignments [session.is_authenticated = True; session.username = u]. *)
Definition set_authenticated (u : string) (s : BrowserSession) : BrowserSession :=
  {| browser := browser s; session_id := session_id s;
     created_at := created_at s; last_used := last_used s;
     is_authenticated := true; username := Some u;
     usage_count := usage_count s; is_busy := is_busy s;
     error_count := error_count s; max_errors := max_errors s |}.

(** A reference to a [BrowserSession] object: its index in the store. *)
Abbreviation ref := nat.

(** [class SessionPool] with the part of the world it acts on: the object
    store, the clock and the set of browser handles on which [quit()] has
    been called. *)
Record SessionPool := mkSessionPool {
  max_pool_size : nat;
  min_pool_size : nat;
  max_session_age : timedelta;
  max_idle_time : timedelta;
  health_check_interval : nat;
  _sessions : gmap string ref;
  _available_sessions : gset string;
  _shutdown_event : bool;
  store : list BrowserSession;
  quit_browsers : gset WebDriver;
  clock : datetime
}.

Definition with_sessions (m : gmap string ref) (p : SessionPool) : SessionPool :=
  mkSessionPool (max_pool_size p) (min_pool_size p) (max_session_age p)
    (max_idle_time p) (health_check_interval p) m (_available_sessions p)
    (_shutdown_event p) (store p) (quit_browsers p) (clock p).

Definition with_available (a : gset string) (p : SessionPool) : SessionPool :=
  mkSessionPool (max_pool_size p) (min_pool_size p) (max_session_age p)
    (max_idle_time p) (health_check_interval p) (_sessions p) a
    (_shutdown_event p) (store p) (quit_browsers p) (clock p).

Definition with_shutdown (b : bool) (p : SessionPool) : SessionPool :=
  mkSessionPool (max_pool_size p) (min_pool_size p) (max_session_age p)
    (max_idle_time p) (health_check_interval p) (_sessions p)
    (_available_sessions p) b (store p) (quit_browsers p) (clock p).

Definition with_store (h : list BrowserSession) (p : SessionPool) : SessionPool :=
  mkSessionPool (max_pool_size p) (min_pool_size p) (max_session_age p)
    (max_idle_time p) (health_check_interval p) (_sessions p)
    (_available_sessions p) (_shutdown_event p) h (quit_browsers p) (clock p).

Definition with_quit (q : gset WebDriver) (p : SessionPool) : SessionPool :=
  mkSessionPool (max_pool_size p) (min_pool_size p) (max_session_age p)
    (max_idle_time p) (health_check_interval p) (_sessions p)
    (_available_sessions p) (_shutdown_event p) (store p) q (clock p).

Definition with_clock (t : datetime) (p : SessionPool) : SessionPool :=
  mkSessionPool (max_pool_size p) (min_pool_size p) (max_session_age p)
    (max_idle_time p) (health_check_interval p) (_sessions p)
    (_available_sessions p) (_shutdown_event p) (store p) (quit_browsers p) t.

(** [SessionPool.__init__]: the pool starts empty; the health-check thread
    it starts is the interleaving of [_cleanup_expired_sessions] and
    [_maintain_pool_size] transitions below. *)
Definition __init__ (config : Config) (now : datetime) : SessionPool :=
  {| max_pool_size := config_get_int config "max_pool_size" 10;
     min_pool_size := config_get_int config "min_pool_size" 2;
     max_session_age := timedelta_hours (config_get_int config "max_session_age_hours" 2);
     max_idle_time := timedelta_minutes (config_get_int config "max_idle_minutes" 30);
     health_check_interval := config_get_int config "health_check_interval" 300;
     _sessions := ∅;
     _available_sessions := ∅;
     _shutdown_event := false;
     store := [];
     quit_browsers := ∅;
     clock := now |}.

(** [time.sleep] and the passing of time between calls. *)
Definition sleep (d : timedelta) (p : SessionPool) : SessionPool :=
  with_clock (clock p + d) p.

(** The identifier built by [__post_init__]:
    [f"session_{int(time.time())}_{id(self)}"]. *)
Definition make_session_id (now : datetime) (r : ref) : string :=
  "session_" +:+ pretty (now `div` 1000000) +:+ "_" +:+ pretty r.

(** [_create_session]: [create_browser ()] is the browser factory's answer
    ([Exc] when it raises); on success the new object is allocated in the
    store. *)
Definition _create_session (create_browser : outcome WebDriver) (p : SessionPool)
    : SessionPool * outcome ref :=
  match create_browser with
  | Exc e => (p, Exc e)
  | Value b =>
      let r := length (store p) in
      let session :=
        {| browser := b; session_id := make_session_id (clock p) r;
           created_at := clock p; last_used := clock p;
           is_authenticated := false; username := None;
           usage_count := 0; is_busy := false;
           error_count := 0; max_errors := 5 |} in
      (with_store (store p ++ [session]) p, Value r)
  end.

(** [_remove_session] *)
Definition _remove_session (sid : string) (p : SessionPool) : SessionPool :=
  match _sessions p !! sid with
  | Some r =>
      let p1 :=
        match store p !! r with
        | Some session => with_quit ({[browser session]} ∪ quit_browsers p) p
        | None => p
        end in
      with_available (_available_sessions p1 ∖ {[sid]})
        (with_sessions (delete sid (_sessions p1)) p1)
  | None => p
  end.

(** [session.session_id] read through a reference. *)
Definition session_id_of (p : SessionPool) (r : ref) : string :=
  match store p !! r with
  | Some session => session_id session
  | None => ""
  end.

(** The scan of [get_session]:
    [for session_id in list(self._available_sessions)] stops at the first id
    whose session exists and is healthy. *)
Fixpoint find_available (p : SessionPool) (ids : list string) : option (string * ref) :=
  match ids with
  | [] => None
  | sid :: rest =>
      match _sessions p !! sid with
      | Some r =>
          match store p !! r with
          | Some session =>
              if is_healthy session then Some (sid, r) else find_available p rest
          | None => find_available p rest
          end
      | None => find_available p rest
      end
  end.

(** [session.is_busy = True; session.mark_used()] *)
Definition lend (r : ref) (p : SessionPool) : SessionPool :=
  with_store (alter (λ s, mark_used (clock p) (set_busy true s)) r (store p)) p.

(** One pass through the [with self._lock:] block of [get_session].
    [order] is the order in which the set of available ids is listed,
    [create_browser] the browser factory's answer should it be called. *)
Definition get_session_attempt (order : list string)
    (create_browser : outcome WebDriver) (p : SessionPool)
    : SessionPool * option ref :=
  match find_available p order with
  | Some (sid, r) =>
      (lend r (with_available (_available_sessions p ∖ {[sid]}) p), Some r)
  | None =>
      if (size (_sessions p) <? max_pool_size p)%nat then
        match _create_session create_browser p with
        | (p1, Value r) =>
            (lend r (with_sessions (<[session_id_of p1 r := r]> (_sessions p1)) p1),
             Some r)
        | (p1, Exc _) => (p1, None)
        end
      else (p, None)
  end.

(** [time.sleep(0.1)] *)
Definition poll_interval : timedelta := 100000.

(** The [while time.time() - start_time < timeout] loop of [get_session].
    [create_browser k] answers the factory call of iteration [k].  The
    result is [None] only when [fuel] iterations did not suffice. *)
Fixpoint get_session_loop (fuel : nat) (start_time : datetime) (timeout : timedelta)
    (order : list string) (create_browser : nat → outcome WebDriver)
    (k : nat) (p : SessionPool) : option (SessionPool * option ref) :=
  if clock p - start_time <? timeout then
    match fuel with
    | O => None
    | S fuel' =>
        match get_session_attempt order (create_browser k) p with
        | (p', Some r) => Some (p', Some r)
        | (p', None) =>
            get_session_loop fuel' start_time timeout order create_browser
              (S k) (sleep poll_interval p')
        end
    end
  else Some (p, None).

(** Iterations that [get_session] can make before its timeout elapses. *)
Definition get_session_fuel (timeout : timedelta) : nat :=
  S (Z.to_nat (timeout `div` poll_interval)).

(** [SessionPool.get_session(timeout)]: a session, or [None] on timeout. *)
Definition get_session (timeout : timedelta) (order : list string)
    (create_browser : nat → outcome WebDriver) (p : SessionPool)
    : SessionPool * option ref :=
  match get_session_loop (get_session_fuel timeout) (clock p) timeout
          order create_browser 0 p with
  | Some res => res
  | None => (p, None)
  end.

(** What [return_session] does to the session object:
    [session.is_busy = False], then [session.mark_error()] if [had_error]. *)
Definition released (had_error : bool) (s : BrowserSession) : BrowserSession :=
  let s1 := set_busy false s in
  if had_error then mark_error s1 else s1.

(** [SessionPool.return_session(session, had_error)] *)
Definition return_session (session : ref) (had_error : bool) (p : SessionPool)
    : SessionPool :=
  match store p !! session with
  | None => p
  | Some s =>
      if decide (is_Some (_sessions p !! session_id s)) then
        let p2 := with_store (alter (released had_error) session (store p)) p in
        if is_healthy (released had_error s) then
          with_available ({[session_id s]} ∪ _available_sessions p2) p2
        else _remove_session (session_id s) p2
      else p
  end.

(** Whether the janitor retires the session behind [r]. *)
Definition retire_due (p : SessionPool) (r : ref) : bool :=
  match store p !! r with
  | Some session =>
      is_expired (clock p) session (max_session_age p)
      || is_idle (clock p) session (max_idle_time p)
      || negb (is_healthy session)
  | None => false
  end.

(** The list [expired_sessions] collected by [_cleanup_expired_sessions]. *)
Definition expired_sessions (p : SessionPool) : list string :=
  (filter (λ kv, Is_true (retire_due p kv.2)) (map_to_list (_sessions p))).*1.

Definition remove_all (ids : list string) (p : SessionPool) : SessionPool :=
  foldl (λ q sid, _remove_session sid q) p ids.

(** [_cleanup_expired_sessions] *)
Definition _cleanup_expired_sessions (p : SessionPool) : SessionPool :=
  remove_all (expired_sessions p) p.

(** One iteration of the [for _ in range(needed)] loop of
    [_maintain_pool_size]. *)
Definition add_session (create_browser : outcome WebDriver) (p : SessionPool)
    : SessionPool :=
  match _create_session create_browser p with
  | (p1, Value r) =>
      let sid := session_id_of p1 r in
      with_available ({[sid]} ∪ _available_sessions p1)
        (with_sessions (<[sid := r]> (_sessions p1)) p1)
  | (p1, Exc _) => p1
  end.

(** [_maintain_pool_size]; [create_browser k] answers the k-th factory call. *)
Definition _maintain_pool_size (create_browser : nat → outcome WebDriver)
    (p : SessionPool) : SessionPool :=
  let current_size := size (_sessions p) in
  if (current_size <? min_pool_size p)%nat then
    let needed := (min_pool_size p - current_size)%nat in
    foldl (λ q k, add_session (create_browser k) q) p (seq 0 needed)
  else p.

(** [SessionPool.shutdown] *)
Definition shutdown (p : SessionPool) : SessionPool :=
  let p1 := with_shutdown true p in
  remove_all ((map_to_list (_sessions p1)).*1) p1.

(** [SessionManager.get_session]: the scoped lease around [body]. *)
Definition SessionManager_get_session {A : Type} (order : list string)
    (create_browser : nat → outcome WebDriver)
    (body : ref → SessionPool → SessionPool * outcome A) (p : SessionPool)
    : SessionPool * outcome A :=
  match get_session 30000000 order create_browser p with
  | (p1, None) => (p1, Exc (RuntimeError "Failed to get session from pool"))
  | (p1, Some session) =>
      match body session p1 with
      | (p2, Value a) => (return_session session false p2, Value a)
      | (p2, Exc e) => (return_session session true p2, Exc e)
      end
  end.

(** The pool's atomic transitions, as seen by all its threads. *)
Inductive action :=
  | Acquire (order : list string) (create_browser : outcome WebDriver)
  | Release (session : ref) (had_error : bool)
  | Cleanup
  | Maintain (create_browser : nat → outcome WebDriver)
  | Authenticate (session : ref) (user : string)
  | Elapse (d : N)
  | Shutdown.

Definition step (a : action) (p : SessionPool) : SessionPool :=
  match a with
  | Acquire order create_browser => (get_session_attempt order create_browser p).1
  | Release session had_error => return_session session had_error p
  | Cleanup => _cleanup_expired_sessions p
  | Maintain create_browser => _maintain_pool_size create_browser p
  | Authenticate session user =>
      with_store (alter (set_authenticated user) session (store p)) p
  | Elapse d => sleep (Z.of_N d) p
  | Shutdown => shutdown p
  end.

Definition run (acts : list action) (p : SessionPool) : SessionPool :=
  foldl (λ q a, step a q) p acts.

(** States the pool built from [config] can be in. *)
Definition reachable (config : Config) (p : SessionPool) : Prop :=
  ∃ now acts, p = run acts (__init__ config now).

(** [self._sessions.values()]: the session objects of the mapping. *)
Definition sessions_values (p : SessionPool) : list BrowserSession :=
  omap (λ kv, store p !! kv.2) (map_to_list (_sessions p)).

(** The dictionary returned by [get_pool_stats]. *)
Record PoolStats := mkPoolStats {
  total_sessions : nat;
  available_sessions : nat;
  busy_sessions : nat;
  authenticated_sessions : nat;
  average_usage : Q;
  stats_max_pool_size : nat;
  stats_min_pool_size : nat
}.

(** [SessionPool.get_pool_stats] *)
Definition get_pool_stats (p : SessionPool) : PoolStats :=
  {| total_sessions := size (_sessions p);
     available_sessions := size (_available_sessions p);
     busy_sessions :=
       length (List.filter is_busy (sessions_values p));
     authenticated_sessions :=
       length (List.filter is_authenticated (sessions_values p));
     average_usage :=
       if (0 <? size (_sessions p))%nat
       then (inject_Z (Z.of_nat (list_sum (usage_count <$> sessions_values p)))
             / inject_Z (Z.of_nat (size (_sessions p))))%Q
       else 0%Q;
     stats_max_pool_size := max_pool_size p;
     stats_min_pool_size := min_pool_size p |}.

End SessionManager.

(** ** tv/utils/timing_utils.py *)

Module TimingUtils.

(** What a run of the timing code does to the world: how many times the
    retried callable has been called, and the durations (seconds) passed to
    [time.sleep], oldest first. *)
Record world := mkWorld {
  calls : nat;
  slept : list Q
}.

Definition sleep (seconds : Q) (w : world) : world :=
  {| calls := calls w; slept := slept w ++ [seconds] |}.

Definition call (w : world) : world :=
  {| calls := S (calls w); slept := slept w |}.

(** The body of [for attempt in range(max_retries + 1)] in
    [retry_on_failure], followed by [raise last_exception].  [func k] is
    the outcome of the call of [func()] made after [k] earlier calls;
    [exceptions e] tells whether [e] is an instance of the classes to
    catch. *)
Fixpoint retry_attempts {A : Type} (func : nat → outcome A)
    (exceptions : PyException → bool) (max_retries : nat) (delay : Q)
    (attempts : list nat) (last_exception : option PyException) (w : world)
    : world * outcome A :=
  match attempts with
  | [] =>
      match last_exception with
      | Some e => (w, Exc e)
      | None => (w, Exc (TypeError "exceptions must derive from BaseException"))
      end
  | attempt :: rest =>
      match func (calls w) with
      | Value v => (call w, Value v)
      | Exc e =>
          if exceptions e then
            if (attempt <? max_retries)%nat then
              retry_attempts func exceptions max_retries delay rest (Some e)
                (sleep delay (call w))
            else
              retry_attempts func exceptions max_retries delay rest (Some e)
                (call w)
          else (call w, Exc e)
      end
  end.

(** [TimingManager.retry_on_failure] *)
Definition retry_on_failure {A : Type} (func : nat → outcome A)
    (max_retries : nat) (delay : Q) (exceptions : PyException → bool)
    (w : world) : world * outcome A :=
  retry_attempts func exceptions max_retries delay
    (seq 0 (max_retries + 1)) None w.

(** [TimingManager.progressive_delay]; [attempt] is 0-based. *)
Definition progressive_delay (attempt : nat) (base_delay : Q) (w : world) : world :=
  let delay := (base_delay * 2 ^ Z.of_nat attempt)%Q in
  sleep (Qmin delay 10) w.

(** The backoff the specification words for the retry primitive: after
    the failure of attempt [k] (1-based), [base_delay · 2^(k-1)] capped at
    10 seconds. *)
Definition spec_backoff (base_delay : Q) (k : nat) : Q :=
  Qmin (base_delay * 2 ^ (Z.of_nat k - 1))%Q 10.

(** A callable that always raises [TimeoutException], and one that raises
    it twice and then returns 42. *)
Definition always_times_out : nat → outcome nat :=
  λ _, Exc TimeoutException.

Definition third_time_lucky : nat → outcome nat :=
  λ k, if (k <? 2)%nat then Exc TimeoutException else Value 42%nat.

(** [exceptions = (Exception,)] *)
Definition any_exception : PyException → bool := λ _, true.

Definition fresh_world : world := {| calls := 0; slept := [] |}.

End TimingUtils.

(** ** tv/core/async_browser.py *)

Module AsyncBrowser.

Abbreviation WebDriver := nat.

(** A coroutine over the shared state [S]: it has finished with an
    outcome, or it is suspended at an [await]; resumed in state [s] it runs
    atomically to its next suspension point, leaving the state [effect s]
    and the coroutine [next s]. *)
Inductive coro (S A : Type) :=
  | Finished (o : outcome A)
  | Await (next : S → coro S A) (effect : S → S).
Arguments Finished {S A} o.
Arguments Await {S A} next effect.

(** The outcomes a coroutine can finish with. *)
Inductive produces {S A : Type} : coro S A → outcome A → Prop :=
  | produces_finished o : produces (Finished o) o
  | produces_await next effect s o :
      produces (next s) o → produces (Await next effect) o.

(** The event loop resumes task [i]. *)
Definition resume {S A : Type} (i : nat) (st : S * list (coro S A))
    : S * list (coro S A) :=
  match st.2 !! i with
  | Some (Await next effect) => (effect st.1, <[i := next st.1]> st.2)
  | _ => st
  end.

(** The event loop resumes tasks in the order of [schedule]. *)
Definition event_loop {S A : Type} (schedule : list nat)
    (st : S * list (coro S A)) : S * list (coro S A) :=
  foldl (λ q i, resume i q) st schedule.

(** One turn of the event loop, whatever task it picks. *)
Inductive loop_step {S A : Type} : relation (S * list (coro S A)) :=
  | loop_resume i s ts next effect :
      ts !! i = Some (Await next effect) →
      loop_step (s, ts) (effect s, <[i := next s]> ts).

(** What a finished task contributes to
    [asyncio.gather(..., return_exceptions=True)]. *)
Definition task_result {S A : Type} (c : coro S A) : option (A + PyException) :=
  match c with
  | Finished (Value a) => Some (inl a)
  | Finished (Exc e) => Some (inr e)
  | Await _ _ => None
  end.

Definition as_result {A : Type} (o : outcome A) : A + PyException :=
  match o with
  | Value a => inl a
  | Exc e => inr e
  end.

(** [asyncio.gather] over the tasks with [return_exceptions=True], once
    every task is done; [None] while some task is still pending. *)
Definition gather {S A : Type} (tasks : list (coro S A))
    : option (list (A + PyException)) :=
  mapM task_result tasks.

(** [AsyncBrowserManager.parallel_operations] under the schedule the event
    loop follows; the result is [None] when the schedule ends with the
    gather still pending. *)
Definition parallel_operations {S A : Type} (schedule : list nat)
    (operations : list (unit → coro S A)) (s : S)
    : S * option (list (A + PyException)) :=
  let tasks := (λ op, op ()) <$> operations in
  let st := event_loop schedule (s, tasks) in
  (st.1, gather st.2).

(** The part of [AsyncBrowserManager] the batch jobs share: the browser
    pool, and the number of browsers asked of the factory so far. *)
Record AsyncBrowserManager := mkManager {
  _browser_pool : list WebDriver;
  created : nat
}.

Section Alerts.
(** The browser factory and the alert creator are collaborators:
    [create_browser k] answers the k-th factory call and
    [create_alert browser config] is [AlertCreator(browser,
    self.config).create_alert(config)]. *)
Variable create_browser : nat → outcome WebDriver.
Variable create_alert : WebDriver → Config → outcome bool.

(** [get_browser], run under [_pool_lock]. *)
Definition get_browser (m : AsyncBrowserManager)
    : AsyncBrowserManager * outcome WebDriver :=
  match reverse (_browser_pool m) with
  | b :: rest => ({| _browser_pool := reverse rest; created := created m |}, Value b)
  | [] =>
      ({| _browser_pool := _browser_pool m; created := S (created m) |},
       create_browser (created m))
  end.

(** [return_browser] *)
Definition return_browser (b : WebDriver) (m : AsyncBrowserManager)
    : AsyncBrowserManager :=
  {| _browser_pool := _browser_pool m ++ [b]; created := created m |}.

(** The coroutine [_create_single_alert(config)] of
    [create_alerts_batch]. *)
Definition _create_single_alert (config : Config)
    : coro AsyncBrowserManager bool :=
  Await
    (λ m,
      match (get_browser m).2 with
      | Exc e => Finished (Exc e)
      | Value b =>
          Await
            (λ _,
              let flag :=
                match create_alert b config with
                | Value ok => ok
                | Exc _ => false
                end in
              Await (λ _, Finished (Value flag)) (return_browser b))
            (λ m1, m1)
      end)
    (λ m, (get_browser m).1).

(** [AsyncTradingViewClient.create_alerts_batch] *)
Definition create_alerts_batch (schedule : list nat)
    (alert_configs : list Config) (m : AsyncBrowserManager)
    : AsyncBrowserManager * option (list (bool + PyException)) :=
  let tasks := _create_single_alert <$> alert_configs in
  let st := event_loop schedule (m, tasks) in
  (st.1, gather st.2).
End Alerts.

(** One turn of the event loop as the tasks see it: some suspended task is
    resumed, in some state. *)
Inductive task_step {S A : Type} : relation (list (coro S A)) :=
  | task_resume i ts next effect s :
      ts !! i = Some (Await next effect) →
      task_step ts (<[i := next s]> ts).

(** The coroutine [c] after it has been resumed in the states [seen], one
    after the other. *)
Fixpoint after {S A : Type} (c : coro S A) (seen : list S) {struct seen}
    : coro S A :=
  match seen, c with
  | s :: rest, Await next _ => after (next s) rest
  | _, _ => c
  end.

(** The states in which the event loop, following [schedule] from [st],
    resumes task [i] while it is suspended. *)
Fixpoint resumptions {S A : Type} (i : nat) (schedule : list nat)
    (st : S * list (coro S A)) : list S :=
  match schedule with
  | [] => []
  | j :: rest =>
      let seen := resumptions i rest (resume j st) in
      if decide (j = i) then
        match st.2 !! i with
        | Some (Await _ _) => st.1 :: seen
        | _ => seen
        end
      else seen
  end.

(** Three jobs over a counter: the first returns after one suspension, the
    second raises after two, the third returns after one; each adds one
    to the counter when it is first resumed. *)
Definition three_jobs : list (unit → coro nat string) :=
  [ (λ _, Await (λ _, Finished (Value "ok")) S);
    (λ _, Await (λ _, Await (λ _, Finished (Exc (RuntimeError "boom"))) id) S);
    (λ _, Await (λ _, Finished (Value "ok")) S) ].

(** The browsers that the factory calls number [first], ...,
    [first + n - 1] returned, in the order of the calls. *)
Definition browsers_made (create_browser : nat → outcome WebDriver)
    (first n : nat) : list WebDriver :=
  omap (λ k, match create_browser k with
             | Value b => Some b
             | Exc _ => None
             end) (seq first n).

(** The points at which a task of [create_alerts_batch] can be, with the
    browsers it holds there and the number of times it has asked for a
    browser: before [get_browser]; in the executor, holding the browser;
    in [finally], about to return it; done. *)
Inductive alert_task (create_browser : nat → outcome WebDriver)
    (create_alert : WebDriver → Config → outcome bool)
    : coro AsyncBrowserManager bool → list WebDriver * nat → Prop :=
  | alert_waiting config :
      alert_task create_browser create_alert
        (_create_single_alert create_browser create_alert config) ([], 0%nat)
  | alert_creating b config :
      alert_task create_browser create_alert
        (Await
           (λ _,
             let flag :=
               match create_alert b config with
               | Value ok => ok
               | Exc _ => false
               end in
             Await (λ _, Finished (Value flag)) (return_browser b))
           (λ m1, m1)) ([b], 1%nat)
  | alert_returning b flag :
      alert_task create_browser create_alert
        (Await (λ _, Finished (Value flag)) (return_browser b)) ([b], 1%nat)
  | alert_done o :
      alert_task create_browser create_alert (Finished o) ([], 1%nat).

(** A factory whose k-th browser is number [100 + k], an alert creator
    that succeeds, and a manager with an empty pool. *)
Definition numbered_browsers : nat → outcome WebDriver :=
  λ k, Value (100 + k)%nat.

Definition alert_succeeds : WebDriver → Config → outcome bool :=
  λ _ _, Value true.

Definition empty_manager : AsyncBrowserManager :=
  {| _browser_pool := []; created := 0 |}.

(** What the event loop keeps true of the manager and the tasks of a
    batch started in [m0]: the manager has asked the factory [k] more
    times, at most once per task that has left its starting point, and
    the browsers of the pool together with those the tasks hold are those
    of the pool of [m0] and those the factory made. *)
Definition conserved (create_browser : nat → outcome WebDriver)
    (create_alert : WebDriver → Config → outcome bool)
    (m0 : AsyncBrowserManager)
    (st : AsyncBrowserManager * list (coro AsyncBrowserManager bool))
    : Prop :=
  ∃ (infos : list (list WebDriver * nat)) (k : nat),
    Forall2 (alert_task create_browser create_alert) st.2 infos
    ∧ created st.1 = (created m0 + k)%nat
    ∧ (k ≤ sum_list infos.*2)%nat
    ∧ Forall (λ info, (info.2 ≤ 1)%nat) infos
    ∧ _browser_pool st.1 ++ concat infos.*1
      ≡ₚ _browser_pool m0 ++ browsers_made create_browser (created m0) k.

End AsyncBrowser.

(** ** tv/core/performance_monitor.py *)

Module PerformanceMonitor.

Abbreviation datetime := Z.
Abbreviation timedelta := Z.

(** [deque(maxlen=n).append(x)] *)
Definition deque_append {A : Type} (maxlen : nat) (x : A) (d : list A) : list A :=
  let d' := d ++ [x] in
  drop (length d' - maxlen) d'.

(** [@dataclass PerformanceMetric] *)
Record PerformanceMetric := mkMetric {
  name : string;
  value : Q;
  unit : string;
  timestamp : datetime;
  tags : gmap string string
}.

(** [@dataclass OperationStats]; [min_time = None] is [float('inf')]. *)
Record OperationStats := mkStats {
  op_name : string;
  count : nat;
  total_time : Q;
  min_time : option Q;
  max_time : Q;
  success_count : nat;
  error_count : nat;
  recent_times : list Q
}.

(** [OperationStats(name)] *)
Definition new_stats (n : string) : OperationStats :=
  {| op_name := n; count := 0; total_time := 0; min_time := None;
     max_time := 0; success_count := 0; error_count := 0;
     recent_times := [] |}.

Definition add_timing (duration : Q) (success : bool) (s : OperationStats)
    : OperationStats :=
  {| op_name := op_name s;
     count := S (count s);
     total_time := (total_time s + duration)%Q;
     min_time := Some (match min_time s with
                       | None => duration
                       | Some m => Qmin m duration
                       end);
     max_time := Qmax (max_time s) duration;
     success_count := if success then S (success_count s) else success_count s;
     error_count := if success then error_count s else S (error_count s);
     recent_times := deque_append 100 duration (recent_times s) |}.

Definition Qsum (l : list Q) : Q := foldl Qplus 0%Q l.

Definition average_time (s : OperationStats) : Q :=
  if (0 <? count s)%nat then (total_time s / inject_Z (Z.of_nat (count s)))%Q else 0%Q.

Definition recent_average (s : OperationStats) : Q :=
  match recent_times s with
  | [] => 0%Q
  | _ => (Qsum (recent_times s) / inject_Z (Z.of_nat (length (recent_times s))))%Q
  end.

Definition success_rate (s : OperationStats) : Q :=
  if (0 <? count s)%nat
  then (inject_Z (Z.of_nat (success_count s)) / inject_Z (Z.of_nat (count s)))%Q
  else 0%Q.

(** The dictionary built by [OperationStats.to_dict]. *)
Record StatsDict := mkStatsDict {
  d_name : string;
  d_count : nat;
  d_total_time : Q;
  d_average_time : Q;
  d_min_time : Q;
  d_max_time : Q;
  d_recent_average : Q;
  d_success_count : nat;
  d_error_count : nat;
  d_success_rate : Q
}.

Definition stats_to_dict (s : OperationStats) : StatsDict :=
  {| d_name := op_name s; d_count := count s; d_total_time := total_time s;
     d_average_time := average_time s;
     d_min_time := match min_time s with Some m => m | None => 0%Q end;
     d_max_time := max_time s; d_recent_average := recent_average s;
     d_success_count := success_count s; d_error_count := error_count s;
     d_success_rate := success_rate s |}.

(** [class PerformanceMonitor]: configuration and data storage. *)
Record PerformanceMonitor := mkMonitor {
  enabled : bool;
  collect_interval : nat;
  retention_hours : nat;
  max_metrics : nat;
  metrics : list PerformanceMetric;
  operation_stats : gmap string OperationStats
}.

(** [PerformanceMonitor.__init__] *)
Definition __init__ (config : Config) : PerformanceMonitor :=
  {| enabled := config_get_bool config "performance_monitoring" true;
     collect_interval := config_get_int config "collect_interval" 60;
     retention_hours := config_get_int config "retention_hours" 24;
     max_metrics := config_get_int config "max_metrics" 10000;
     metrics := [];
     operation_stats := ∅ |}.

Definition with_metrics (l : list PerformanceMetric) (m : PerformanceMonitor)
    : PerformanceMonitor :=
  mkMonitor (enabled m) (collect_interval m) (retention_hours m)
    (max_metrics m) l (operation_stats m).

Definition with_operation_stats (o : gmap string OperationStats)
    (m : PerformanceMonitor) : PerformanceMonitor :=
  mkMonitor (enabled m) (collect_interval m) (retention_hours m)
    (max_metrics m) (metrics m) o.

(** [add_metric]; [now] is [datetime.now()], [tags = None] reads as the
    empty dictionary. *)
Definition add_metric (now : datetime) (n : string) (v : Q) (u : string)
    (tgs : option (gmap string string)) (m : PerformanceMonitor)
    : PerformanceMonitor :=
  if negb (enabled m) then m
  else
    let metric :=
      {| name := n; value := v; unit := u; timestamp := now;
         tags := default ∅ tgs |} in
    with_metrics (deque_append (max_metrics m) metric (metrics m)) m.

(** [str(success)] *)
Definition str_bool (b : bool) : string := if b then "True" else "False".

(** [record_operation] *)
Definition record_operation (now : datetime) (operation_name : string)
    (duration : Q) (success : bool) (m : PerformanceMonitor)
    : PerformanceMonitor :=
  if negb (enabled m) then m
  else
    let stats0 :=
      match operation_stats m !! operation_name with
      | Some s => s
      | None => new_stats operation_name
      end in
    let m1 :=
      with_operation_stats
        (<[operation_name := add_timing duration success stats0]>
           (operation_stats m)) m in
    add_metric now ("operation." +:+ operation_name +:+ ".duration") duration
      "seconds" (Some {["success" := str_bool success]}) m1.

(** The value of [get_operation_stats]: all records by name, or the record
    asked for ([None] when there is none: the empty dictionary). *)
Inductive StatsView :=
  | AllStats (all : gmap string StatsDict)
  | OneStats (one : option StatsDict).

Definition get_operation_stats (operation_name : option string)
    (m : PerformanceMonitor) : StatsView :=
  match operation_name with
  | Some n =>
      if negb (String.eqb n "")
      then OneStats (stats_to_dict <$> operation_stats m !! n)
      else AllStats (stats_to_dict <$> operation_stats m)
  | None => AllStats (stats_to_dict <$> operation_stats m)
  end.

(** [name_filter in m.name] *)
Definition is_substring (needle hay : string) : bool :=
  match String.index 0 needle hay with
  | Some _ => true
  | None => false
  end.

(** [get_metrics]; the dictionaries of [to_dict] carry the very fields of
    the metric, so the metric stands for its dictionary. *)
Definition get_metrics (now : datetime) (name_filter : option string)
    (time_range : option timedelta) (m : PerformanceMonitor)
    : list PerformanceMetric :=
  let l0 := metrics m in
  let l1 :=
    match time_range with
    | Some range =>
        if negb (range =? 0)
        then List.filter (λ x, now - range <=? timestamp x) l0
        else l0
    | None => l0
    end in
  match name_filter with
  | Some f =>
      if negb (String.eqb f "")
      then List.filter (λ x, is_substring f (name x)) l1
      else l1
  | None => l1
  end.

(** [reset_stats] *)
Definition reset_stats (m : PerformanceMonitor) : PerformanceMonitor :=
  with_operation_stats ∅ (with_metrics [] m).

(** A snapshot of the recorder: the statistics of every operation and the
    metric events. *)
Definition snapshot (now : datetime) (m : PerformanceMonitor)
    : StatsView * list PerformanceMetric :=
  (get_operation_stats None m, get_metrics now None None m).

(** A call that feeds the recorder. *)
Inductive recorder_call :=
  | CallRecordOperation (now : datetime) (operation_name : string)
      (duration : Q) (success : bool)
  | CallAddMetric (now : datetime) (n : string) (v : Q) (u : string)
      (tgs : option (gmap string string)).

Definition do_call (c : recorder_call) (m : PerformanceMonitor)
    : PerformanceMonitor :=
  match c with
  | CallRecordOperation now operation_name duration success =>
      record_operation now operation_name duration success m
  | CallAddMetric now n v u tgs => add_metric now n v u tgs m
  end.

Definition do_calls (cs : list recorder_call) (m : PerformanceMonitor)
    : PerformanceMonitor :=
  foldl (λ q c, do_call c q) m cs.

(** A configuration that disables monitoring, and some calls. *)
Definition monitoring_off : Config :=
  {["performance_monitoring" := PyBool false]}.

Definition some_calls : list recorder_call :=
  [CallRecordOperation 5 "browser.click" (1 # 2) true;
   CallAddMetric 6 "system.cpu.usage" (37 # 1) "percent" None;
   CallRecordOperation 7 "browser.click" (3 # 2) false].

(** The [while self.metrics and self.metrics[0].timestamp < cutoff_time:
    self.metrics.popleft()] loop. *)
Fixpoint drop_stale (cutoff_time : datetime) (l : list PerformanceMetric)
    : list PerformanceMetric :=
  match l with
  | [] => []
  | x :: rest =>
      if timestamp x <? cutoff_time then drop_stale cutoff_time rest else l
  end.

(** [timedelta(hours=h)] *)
Definition hours (h : nat) : timedelta := Z.of_nat h * 3600000000.

(** [_cleanup_old_metrics] *)
Definition _cleanup_old_metrics (now : datetime) (m : PerformanceMonitor)
    : PerformanceMonitor :=
  match metrics m with
  | [] => m
  | _ =>
      let cutoff_time := now - hours (retention_hours m) in
      with_metrics (drop_stale cutoff_time (metrics m)) m
  end.

(** [with PerformanceTimer(monitor, operation_name): body].  [start_time]
    and [end_time] are the readings of [time.time()] on entry and exit,
    [now] is [datetime.now()] on exit. *)
Definition PerformanceTimer {A : Type} (start_time end_time : Q)
    (now : datetime) (operation_name : string)
    (body : PerformanceMonitor → PerformanceMonitor * outcome A)
    (m : PerformanceMonitor) : PerformanceMonitor * outcome A :=
  let (m1, res) := body m in
  let success := match res with Value _ => true | Exc _ => false end in
  if Qeq_bool start_time 0 then (m1, res)
  else
    (record_operation now operation_name (end_time - start_time)%Q success m1,
     res).

(** The wrapper built by the decorator [performance_metric] around the
    function [func_name] of the module [module_name]. *)
Definition performance_metric {A : Type} (operation_name : option string)
    (module_name func_name : string) (start_time end_time : Q)
    (now : datetime)
    (func : PerformanceMonitor → PerformanceMonitor * outcome A)
    (m : PerformanceMonitor) : PerformanceMonitor * outcome A :=
  let op_name :=
    match operation_name with
    | Some n => if String.eqb n "" then module_name +:+ "." +:+ func_name else n
    | None => module_name +:+ "." +:+ func_name
    end in
  PerformanceTimer start_time end_time now op_name func m.

(** Everything that changes the recorder. *)
Inductive recorder_event :=
  | Feed (c : recorder_call)
  | CleanupOld (now : datetime)
  | ResetStats.

Definition do_event (e : recorder_event) (m : PerformanceMonitor)
    : PerformanceMonitor :=
  match e with
  | Feed c => do_call c m
  | CleanupOld now => _cleanup_old_metrics now m
  | ResetStats => reset_stats m
  end.

Definition do_events (es : list recorder_event) (m : PerformanceMonitor)
    : PerformanceMonitor :=
  foldl (λ q e, do_event e q) m es.

(** The metric events are emitted one after the other. *)
Definition emit_all (xs : list PerformanceMetric) (m : PerformanceMonitor)
    : PerformanceMonitor :=
  foldl (λ q x, add_metric (timestamp x) (name x) (value x) (unit x)
                  (Some (tags x)) q) m xs.

(** The timings, each with its success flag, are recorded one after the
    other in the statistics of one operation. *)
Definition add_timings (timings : list (Q * bool)) (s : OperationStats)
    : OperationStats :=
  foldl (λ q t, add_timing t.1 t.2 q) s timings.

(** What holds of the statistics kept under the name [key]. *)
Definition stats_sound (key : string) (s : OperationStats) : Prop :=
  op_name s = key
  ∧ count s = (success_count s + error_count s)%nat
  ∧ (1 ≤ count s)%nat
  ∧ length (recent_times s) = (count s `min` 100)%nat
  ∧ (0 <= max_time s)%Q
  ∧ ∃ fastest, min_time s = Some fastest ∧ (fastest <= max_time s)%Q.

(** A recorder with room for two events, three metric events, and an
    event that fails. *)
Definition tiny_log : Config := {["max_metrics" := PyInt 2]}.

Definition three_metrics : list PerformanceMetric :=
  [ {| name := "a"; value := 1; unit := "s"; timestamp := 10; tags := ∅ |};
    {| name := "b"; value := 2; unit := "s"; timestamp := 20; tags := ∅ |};
    {| name := "c"; value := 3; unit := "s"; timestamp := 30; tags := ∅ |} ].

Definition failing_body : PerformanceMonitor → PerformanceMonitor * outcome nat :=
  λ m, (m, Exc TimeoutException).

(** The timings that the calls [cs] record for the operation [n], in the
    order of the calls. *)
Definition timings_of (n : string) (cs : list recorder_call)
    : list (Q * bool) :=
  omap (λ c, match c with
             | CallRecordOperation _ n' d ok =>
                 if String.eqb n' n then Some (d, ok) else None
             | CallAddMetric _ _ _ _ _ => None
             end) cs.

(** The metric is older than the cutoff. *)
Definition stale (cutoff_time : datetime) (x : PerformanceMetric) : Prop :=
  (timestamp x < cutoff_time)%Z.

(** A body that returns, and two timings. *)
Definition returning_body : PerformanceMonitor → PerformanceMonitor * outcome nat :=
  λ m, (m, Value 7%nat).

Definition two_timings : list (Q * bool) := [((1 # 2)%Q, true); ((3 # 2)%Q, false)].

(** The log after the metric events [xs] were emitted into a fresh
    recorder with the default settings. *)
Definition logged (xs : list PerformanceMetric) : PerformanceMonitor :=
  emit_all xs (__init__ ∅).

(** [datetime.now()] a day and twenty microseconds after the epoch of the
    clock. *)
Definition a_day_later : datetime := 86400000020.

End PerformanceMonitor.

(** ** Predicates used to state the properties of the pool *)

Module PoolInvariants.
Import SessionManager.

(** The string has no underscore. *)
Fixpoint underscore_free (s : string) : bool :=
  match s with
  | EmptyString => true
  | String c rest => negb (Ascii.eqb c "_"%char) && underscore_free rest
  end.

(** The invariant of the pool over its mapping, its object store and its
    set of available ids. *)
Record consistent (m : gmap string ref) (st : list BrowserSession)
    (a : gset string) : Prop := mkConsistent {
  (** a key of the mapping is the id of the object it maps to *)
  key_is_id : ∀ sid r, m !! sid = Some r →
    ∃ s, st !! r = Some s ∧ session_id s = sid;
  (** the id of an object was built by [__post_init__] for that object *)
  id_of_ref : ∀ r s, st !! r = Some s →
    ∃ t, session_id s = make_session_id t r;
  (** no phantom sessions: an available id is in the mapping *)
  available_live : ∀ sid, sid ∈ a → is_Some (m !! sid);
  (** an available session is idle *)
  available_idle : ∀ sid r s, sid ∈ a → m !! sid = Some r →
    st !! r = Some s → is_busy s = false;
  (** the error budget of every session is the dataclass default *)
  budget_default : ∀ r s, st !! r = Some s → max_errors s = 5%nat
}.

Definition pool_consistent (p : SessionPool) : Prop :=
  consistent (_sessions p) (store p) (_available_sessions p).

(** A change of a session object that the pool's own code can make. *)
Definition benign (f : BrowserSession → BrowserSession) : Prop :=
  ∀ s, session_id (f s) = session_id s ∧ max_errors (f s) = max_errors s
       ∧ browser (f s) = browser s ∧ (error_count s ≤ error_count (f s))%nat.

(** The two pools have the same configuration. *)
Definition same_config (p q : SessionPool) : Prop :=
  max_pool_size q = max_pool_size p ∧ min_pool_size q = min_pool_size p
  ∧ max_session_age q = max_session_age p ∧ max_idle_time q = max_idle_time p
  ∧ health_check_interval q = health_check_interval p.

(** The store [st'] has every object of [st], with its id and its budget,
    and with an error count that is no smaller. *)
Definition store_grows (st st' : list BrowserSession) : Prop :=
  ∀ r s, st !! r = Some s →
    ∃ s', st' !! r = Some s' ∧ session_id s' = session_id s
          ∧ max_errors s' = max_errors s
          ∧ (error_count s ≤ error_count s')%nat.

(** A configuration that asks for an error budget of two per session. *)
Definition budget_config : Config :=
  {["max_errors_per_session" := PyInt 2]}.

(** One session is created and leased, released with an error, leased
    again and released with an error again. *)
Definition two_errors : SessionPool :=
  run [Acquire [] (Value 7%nat); Release 0%nat true;
       Acquire ["session_0_0"] (Exc (WebDriverException "no browser"));
       Release 0%nat true]
    (__init__ budget_config 0).

(** A pool with default configuration whose only session is leased, three
    hours after the lease began. *)
Definition leased_for_three_hours : SessionPool :=
  run [Acquire [] (Value 7%nat); Elapse 10800000000%N] (__init__ ∅ 0).

(** The session object of that pool. *)
Definition leased_session : BrowserSession :=
  {| browser := 7%nat; session_id := "session_0_0"; created_at := 0;
     last_used := 0; is_authenticated := false; username := None;
     usage_count := 1; is_busy := true; error_count := 0;
     max_errors := 5 |}.

(** A pool with default configuration that has lent and taken back one
    session, and has then been shut down. *)
Definition shut_down_pool : SessionPool :=
  shutdown (run [Acquire [] (Value 7%nat); Release 0%nat false] (__init__ ∅ 0)).

(** A pool with default configuration that has lent and taken back one
    session, and the session object it then holds. *)
Definition lent_and_returned : SessionPool :=
  run [Acquire [] (Value 7%nat); Release 0%nat false] (__init__ ∅ 0).

Definition returned_session : BrowserSession :=
  {| browser := 7%nat; session_id := "session_0_0"; created_at := 0;
     last_used := 0; is_authenticated := false; username := None;
     usage_count := 1; is_busy := false; error_count := 0;
     max_errors := 5 |}.

(** A pool of at most two sessions with no minimum, just built. *)
Definition small_pool : SessionPool :=
  __init__ {["min_pool_size" := PyInt 0; "max_pool_size" := PyInt 2]} 0.

(** A pool of at most one session whose only session is leased. *)
Definition exhausted_pool : SessionPool :=
  run [Acquire [] (Value 7%nat)] (__init__ {["max_pool_size" := PyInt 1]} 0).

(** A pool with default configuration after one refill by the janitor. *)
Definition refilled_pool : SessionPool :=
  run [Maintain (λ k, Value (10 + k)%nat)] (__init__ ∅ 0).

(** [s'] is the session object [s] at a later time: the same identity,
    counters that are no smaller, an authentication that is not undone. *)
Definition later_session (s s' : BrowserSession) : Prop :=
  session_id s' = session_id s ∧ browser s' = browser s
  ∧ created_at s' = created_at s ∧ max_errors s' = max_errors s
  ∧ (usage_count s ≤ usage_count s')%nat
  ∧ (error_count s ≤ error_count s')%nat
  ∧ (is_authenticated s = true → is_authenticated s' = true).

(** Every object of [st] is in [st'], as a later version of itself. *)
Definition store_ages (st st' : list BrowserSession) : Prop :=
  ∀ r s, st !! r = Some s → ∃ s', st' !! r = Some s' ∧ later_session s s'.


(** Every session of the mapping is healthy. *)
Definition mapping_healthy (m : gmap string ref) (st : list BrowserSession)
    : Prop :=
  ∀ sid r s, m !! sid = Some r → st !! r = Some s → is_healthy s = true.

(** No object has more errors than its budget. *)
Definition within_budget (st : list BrowserSession) : Prop :=
  ∀ r s, st !! r = Some s → (error_count s ≤ max_errors s)%nat.

(** Whether the entry of the mapping leads to a busy session. *)
Definition busy_entry (p : SessionPool) (kv : string * ref) : bool :=
  match store p !! kv.2 with
  | Some s => is_busy s
  | None => false
  end.


End PoolInvariants.

(** * Properties of the session pool *)

Module PoolProperties.
Import SessionManager PoolInvariants.

(** ** Session identifiers name one object *)

Lemma underscore_free_app s1 s2 :
  underscore_free s1 → underscore_free s2 → underscore_free (s1 +:+ s2).
Proof.
  induction s1 as [|c s1 IH]; simpl; [done|].
  intros [Hc Hs]%andb_True Hs2. apply andb_True. auto.
Qed.

Lemma underscore_free_pretty_N_go (x : N) (s : string) :
  underscore_free s → underscore_free (pretty_N_go x s).
Proof.
  revert s. induction (N.lt_wf_0 x) as [x _ IH]; intros s Hs.
  destruct (decide (x = 0)%N) as [->|Hx].
  - by rewrite pretty_N_go_0.
  - rewrite pretty_N_go_step by lia.
    apply IH; [apply N.div_lt; lia|].
    simpl. apply andb_True. split; [|done].
    unfold pretty_N_char. by repeat case_match.
Qed.

Lemma underscore_free_pretty_N (x : N) : underscore_free (pretty x).
Proof.
  unfold pretty, pretty_N. case_decide; [done|].
  by apply underscore_free_pretty_N_go.
Qed.

Lemma underscore_free_pretty_Z (x : Z) : underscore_free (pretty x).
Proof.
  destruct x as [|q|q]; [done|apply underscore_free_pretty_N|].
  change (pretty (Z.neg q)) with ("-" +:+ pretty (N.pos q)).
  apply underscore_free_app; [done|apply underscore_free_pretty_N].
Qed.

Lemma split_at_underscore (a a' d d' : string) :
  underscore_free a → underscore_free a' →
  a +:+ "_" +:+ d = a' +:+ "_" +:+ d' → a = a' ∧ d = d'.
Proof.
  revert a'. induction a as [|c a IH]; intros [|c' a']; simpl.
  - intros _ _ Heq. by simplify_eq.
  - intros _ [Hc _]%andb_True Heq. by simplify_eq.
  - intros [Hc _]%andb_True _ Heq. by simplify_eq.
  - intros [_ Ha]%andb_True [_ Ha']%andb_True Heq.
    injection Heq as -> Heq.
    destruct (IH a' Ha Ha' Heq) as [-> ->]. done.
Qed.

Lemma make_session_id_inj (t t' : datetime) (r r' : ref) :
  make_session_id t r = make_session_id t' r' → r = r'.
Proof.
  unfold make_session_id. intros Heq. simplify_eq/=.
  apply split_at_underscore in Heq as [_ Heq];
    [|apply underscore_free_pretty_Z..].
  by apply (inj pretty) in Heq.
Qed.

(** ** The pool invariant *)

Lemma benign_lend now : benign (λ s, mark_used now (set_busy true s)).
Proof. by intros s. Qed.

Lemma benign_released had_error : benign (released had_error).
Proof. intros s. destruct had_error; simpl; repeat split; lia. Qed.

Lemma benign_authenticated u : benign (set_authenticated u).
Proof. by intros s. Qed.

Lemma consistent_init : consistent ∅ [] ∅.
Proof. split; intros *; try done; try set_solver. Qed.

Lemma consistent_shrink m st (a a' : gset string) :
  a' ⊆ a → consistent m st a → consistent m st a'.
Proof.
  intros Hsub [H1 H2 H3 H4 H5]. split; eauto.
Qed.

Lemma consistent_ref_of_id m st a sid r r' s :
  consistent m st a → m !! sid = Some r → st !! r' = Some s →
  session_id s = sid → r' = r.
Proof.
  intros [H1 H2 _ _ _] Hm Hs Hid.
  destruct (H1 _ _ Hm) as (s0 & Hs0 & Hid0).
  destruct (H2 _ _ Hs) as [t Ht]. destruct (H2 _ _ Hs0) as [t0 Ht0].
  eapply make_session_id_inj. by rewrite <- Ht, <- Ht0, Hid, Hid0.
Qed.

Lemma consistent_alter m st a f r :
  benign f →
  (∀ s, st !! r = Some s → is_busy (f s) = true →
        session_id s ∈ a → is_busy s = true) →
  consistent m st a → consistent m (alter f r st) a.
Proof.
  intros Hf Hbusy Hc. pose proof Hc as [H1 H2 H3 H4 H5]. split.
  - intros sid r0 Hm. destruct (H1 _ _ Hm) as (s & Hs & Hid).
    destruct (decide (r = r0)) as [->|Hne].
    + exists (f s). rewrite list_lookup_alter_eq, Hs. split; [done|].
      by rewrite (proj1 (Hf s)).
    + exists s. by rewrite list_lookup_alter_ne.
  - intros r0 s'. destruct (decide (r = r0)) as [->|Hne].
    + rewrite list_lookup_alter_eq. destruct (st !! r0) as [s|] eqn:Hs; [|done].
      intros [= <-]. rewrite (proj1 (Hf s)). eauto.
    + rewrite list_lookup_alter_ne by done. eauto.
  - done.
  - intros sid r0 s' Ha Hm. destruct (decide (r = r0)) as [->|Hne].
    + rewrite list_lookup_alter_eq. destruct (st !! r0) as [s|] eqn:Hs; [|done].
      intros [= <-]. destruct (is_busy (f s)) eqn:Hb; [|done].
      destruct (H1 _ _ Hm) as (s0 & Hs0 & Hid0). simplify_eq.
      rewrite <- (H4 _ _ _ Ha Hm Hs). symmetry. by apply Hbusy.
    + rewrite list_lookup_alter_ne by done. eauto.
  - intros r0 s'. destruct (decide (r = r0)) as [->|Hne].
    + rewrite list_lookup_alter_eq. destruct (st !! r0) as [s|] eqn:Hs; [|done].
      intros [= <-]. destruct (Hf s) as (_ & -> & _). eauto.
    + rewrite list_lookup_alter_ne by done. eauto.
Qed.

Lemma sessions_remove sid p :
  _sessions (_remove_session sid p) = delete sid (_sessions p).
Proof.
  unfold _remove_session. destruct (_sessions p !! sid) as [r|] eqn:Hsid.
  - by destruct (store p !! r).
  - symmetry. by apply delete_id.
Qed.

Lemma store_remove sid p : store (_remove_session sid p) = store p.
Proof.
  unfold _remove_session. destruct (_sessions p !! sid) as [r|]; [|done].
  by destruct (store p !! r).
Qed.

Lemma available_remove sid p :
  _available_sessions (_remove_session sid p)
  = if _sessions p !! sid is Some _ then _available_sessions p ∖ {[sid]}
    else _available_sessions p.
Proof.
  unfold _remove_session. destruct (_sessions p !! sid) as [r|]; [|done].
  by destruct (store p !! r).
Qed.

Lemma consistent_delete m st (a : gset string) sid :
  consistent m st a → consistent (delete sid m) st (a ∖ {[sid]}).
Proof.
  intros [H1 H2 H3 H4 H5]. split; eauto.
  - intros sid0 r [_ Hm]%lookup_delete_Some. eauto.
  - intros sid0 [Ha Hne]%elem_of_difference.
    rewrite lookup_delete_ne by set_solver. eauto.
  - intros sid0 r s [Ha Hne]%elem_of_difference [_ Hm]%lookup_delete_Some. eauto.
Qed.

Lemma consistent_remove sid p :
  pool_consistent p → pool_consistent (_remove_session sid p).
Proof.
  unfold pool_consistent. intros Hc.
  rewrite sessions_remove, store_remove, available_remove.
  destruct (_sessions p !! sid) eqn:Hsid.
  - by apply consistent_delete.
  - by rewrite delete_id.
Qed.

Lemma consistent_remove_all ids p :
  pool_consistent p → pool_consistent (remove_all ids p).
Proof.
  revert p. induction ids as [|sid ids IH]; intros p Hc; [done|].
  apply IH. by apply consistent_remove.
Qed.

Lemma fresh_id m st a t :
  consistent m st a → m !! make_session_id t (length st) = None.
Proof.
  intros [H1 H2 _ _ _].
  destruct (m !! make_session_id t (length st)) as [r|] eqn:Hm; [|done].
  destruct (H1 _ _ Hm) as (s & Hs & Hid). destruct (H2 _ _ Hs) as [t0 Ht0].
  rewrite Hid in Ht0. apply make_session_id_inj in Ht0.
  apply lookup_lt_Some in Hs. lia.
Qed.

Lemma consistent_create m st a s t :
  session_id s = make_session_id t (length st) → max_errors s = 5%nat →
  consistent m st a →
  consistent (<[make_session_id t (length st) := length st]> m) (st ++ [s]) a.
Proof.
  intros Hid Hmax Hc. pose proof (fresh_id _ _ _ t Hc) as Hfresh.
  rewrite <- Hid in *. destruct Hc as [H1 H2 H3 H4 H5]. split.
  - intros sid r [[<- <-]|[Hne Hm]]%lookup_insert_Some.
    + exists s. by rewrite list_lookup_middle.
    + destruct (H1 _ _ Hm) as (s0 & Hs0 & Hid0). exists s0.
      by rewrite lookup_app_l_Some with (x := s0).
  - intros r s0 [[_ Hs0]|[-> <-]]%lookup_snoc_Some; eauto.
  - intros sid Ha. rewrite lookup_insert_is_Some. right. split; [|eauto].
    intros <-. destruct (H3 _ Ha) as [r Hr]. congruence.
  - intros sid r s0 Ha [[<- <-]|[Hne Hm]]%lookup_insert_Some.
    + destruct (H3 _ Ha) as [r Hr]. congruence.
    + destruct (H1 _ _ Hm) as (s1 & Hs1 & Hid1).
      rewrite lookup_app_l_Some with (x := s1) by done. intros [= <-]. eauto.
  - intros r s0 [[_ Hs0]|[-> <-]]%lookup_snoc_Some; eauto.
Qed.

Lemma consistent_add_available m st (a : gset string) sid r s :
  m !! sid = Some r → st !! r = Some s → is_busy s = false →
  consistent m st a → consistent m st ({[sid]} ∪ a).
Proof.
  intros Hm Hs Hb [H1 H2 H3 H4 H5]. split; eauto.
  - intros sid0 [->%elem_of_singleton|Ha]%elem_of_union; eauto.
  - intros sid0 r0 s0 [->%elem_of_singleton|Ha]%elem_of_union Hm0 Hs0; eauto.
    by simplify_eq.
Qed.

Lemma find_available_Some p ids sid r :
  find_available p ids = Some (sid, r) →
  sid ∈ ids ∧ _sessions p !! sid = Some r
  ∧ ∃ s, store p !! r = Some s ∧ is_healthy s = true.
Proof.
  induction ids as [|sid0 ids IH]; simpl; [done|].
  destruct (_sessions p !! sid0) as [r0|] eqn:Hm;
    [destruct (store p !! r0) as [s0|] eqn:Hs;
       [destruct (is_healthy s0) eqn:Hh|]|];
    try (intros [? ?]%IH; split; [by right|done]).
  intros [= <- <-]. split; [by left|]. eauto.
Qed.

Lemma consistent_attempt order create_browser p :
  pool_consistent p →
  pool_consistent (get_session_attempt order create_browser p).1.
Proof.
  intros Hc. unfold get_session_attempt.
  destruct (find_available p order) as [[sid r]|] eqn:Hfind.
  - apply find_available_Some in Hfind as (_ & Hm & s & Hs & _).
    unfold pool_consistent, lend; simpl.
    apply consistent_alter; [apply benign_lend| |].
    + intros s0 Hs0 _ Hin. destruct (key_is_id _ _ _ Hc _ _ Hm) as (s1 & ? & ?).
      set_solver.
    + eapply consistent_shrink; [|done]. set_solver.
  - destruct (size (_sessions p) <? max_pool_size p)%nat; [|done].
    destruct create_browser as [b|e]; [|done].
    unfold pool_consistent, lend, session_id_of; simpl.
    rewrite list_lookup_middle by done.
    apply consistent_alter; [apply benign_lend| |].
    + intros s0 [[Hlt _]|[_ <-]]%lookup_snoc_Some _ Hin; [lia|]. simpl in Hin.
      destruct (available_live _ _ _ Hc _ Hin) as [r Hr].
      by rewrite (fresh_id _ _ _ (clock p) Hc) in Hr.
    + by apply consistent_create.
Qed.

Lemma consistent_return session had_error p :
  pool_consistent p → pool_consistent (return_session session had_error p).
Proof.
  intros Hc. unfold return_session.
  destruct (store p !! session) as [s|] eqn:Hs; [|done].
  case_decide as Hin; [|done].
  assert (pool_consistent
            (with_store (alter (released had_error) session (store p)) p)) as Hc2.
  { apply consistent_alter; [apply benign_released| |done].
    intros s0 _ Hb. by destruct had_error. }
  destruct (is_healthy (released had_error s)); [|by apply consistent_remove].
  destruct Hin as [r Hr].
  pose proof (consistent_ref_of_id _ _ _ _ _ _ _ Hc Hr Hs eq_refl) as ->.
  apply (consistent_add_available _ _ _ _ r (released had_error s));
    [done| |by destruct had_error|done].
  simpl. by rewrite list_lookup_alter_eq, Hs.
Qed.

Lemma consistent_add_session create_browser p :
  pool_consistent p → pool_consistent (add_session create_browser p).
Proof.
  intros Hc. unfold add_session. destruct create_browser as [b|e]; [|done].
  unfold pool_consistent, session_id_of; simpl.
  rewrite list_lookup_middle by done. simpl.
  eapply consistent_add_available;
    [apply lookup_insert_eq|by apply list_lookup_middle|done|].
  by apply consistent_create.
Qed.

Lemma consistent_maintain create_browser p :
  pool_consistent p → pool_consistent (_maintain_pool_size create_browser p).
Proof.
  intros Hc. unfold _maintain_pool_size.
  destruct (size (_sessions p) <? min_pool_size p)%nat; [|done].
  generalize (seq 0 (min_pool_size p - size (_sessions p))). intros l.
  revert p Hc. induction l as [|k l IH]; intros p Hc; [done|].
  simpl. apply IH. by apply consistent_add_session.
Qed.

Lemma consistent_step a p : pool_consistent p → pool_consistent (step a p).
Proof.
  intros Hc. destruct a; simpl.
  - by apply consistent_attempt.
  - by apply consistent_return.
  - by apply consistent_remove_all.
  - by apply consistent_maintain.
  - apply consistent_alter; [apply benign_authenticated| |done]. auto.
  - done.
  - by apply consistent_remove_all.
Qed.

Lemma consistent_run acts p : pool_consistent p → pool_consistent (run acts p).
Proof.
  revert p. induction acts as [|a acts IH]; intros p Hc; [done|].
  apply IH. by apply consistent_step.
Qed.

Lemma reachable_consistent config p : reachable config p → pool_consistent p.
Proof.
  intros (now & acts & ->). apply consistent_run, consistent_init.
Qed.

(** ** The configuration is immutable *)

Lemma same_config_refl p : same_config p p.
Proof. by repeat split. Qed.

Lemma same_config_trans p q r :
  same_config p q → same_config q r → same_config p r.
Proof. unfold same_config. intros (?&?&?&?&?) (?&?&?&?&?). repeat split; congruence. Qed.

Lemma same_config_remove sid p : same_config p (_remove_session sid p).
Proof.
  unfold _remove_session. destruct (_sessions p !! sid) as [r|]; [|apply same_config_refl].
  destruct (store p !! r); by repeat split.
Qed.

Lemma same_config_remove_all ids p : same_config p (remove_all ids p).
Proof.
  revert p. induction ids as [|sid ids IH]; intros p; [apply same_config_refl|].
  eapply same_config_trans; [apply (same_config_remove sid)|apply IH].
Qed.

Lemma same_config_attempt order create_browser p :
  same_config p (get_session_attempt order create_browser p).1.
Proof.
  unfold get_session_attempt.
  destruct (find_available p order) as [[sid r]|]; [by repeat split|].
  destruct (size (_sessions p) <? max_pool_size p)%nat; [|apply same_config_refl].
  destruct create_browser; by repeat split.
Qed.

Lemma same_config_return session had_error p :
  same_config p (return_session session had_error p).
Proof.
  unfold return_session.
  destruct (store p !! session) as [s|]; [|apply same_config_refl].
  case_decide; [|apply same_config_refl].
  destruct (is_healthy _); [by repeat split|].
  eapply same_config_trans; [|apply same_config_remove]. by repeat split.
Qed.

Lemma same_config_add_session create_browser p :
  same_config p (add_session create_browser p).
Proof. unfold add_session. destruct create_browser; by repeat split. Qed.

Lemma same_config_maintain create_browser p :
  same_config p (_maintain_pool_size create_browser p).
Proof.
  unfold _maintain_pool_size.
  destruct (size (_sessions p) <? min_pool_size p)%nat; [|apply same_config_refl].
  generalize (seq 0 (min_pool_size p - size (_sessions p))). intros l.
  revert p. induction l as [|k l IH]; intros p; [apply same_config_refl|].
  eapply same_config_trans; [apply (same_config_add_session (create_browser k))|apply IH].
Qed.

Lemma same_config_step a p : same_config p (step a p).
Proof.
  destruct a; simpl.
  - apply same_config_attempt.
  - apply same_config_return.
  - apply same_config_remove_all.
  - apply same_config_maintain.
  - by repeat split.
  - by repeat split.
  - eapply same_config_trans; [|apply same_config_remove_all]. by repeat split.
Qed.

Lemma same_config_run acts p : same_config p (run acts p).
Proof.
  revert p. induction acts as [|a acts IH]; intros p; [apply same_config_refl|].
  eapply same_config_trans; [apply (same_config_step a)|apply IH].
Qed.

(** ** Size bound *)

Lemma size_remove sid p :
  (size (_sessions (_remove_session sid p)) ≤ size (_sessions p))%nat.
Proof.
  rewrite sessions_remove, map_size_delete.
  destruct (_sessions p !! sid); simpl; lia.
Qed.

Lemma size_remove_all ids p :
  (size (_sessions (remove_all ids p)) ≤ size (_sessions p))%nat.
Proof.
  revert p. induction ids as [|sid ids IH]; intros p; [done|].
  etrans; [apply IH|apply size_remove].
Qed.

Lemma size_add_session create_browser p :
  (size (_sessions (add_session create_browser p)) ≤ S (size (_sessions p)))%nat.
Proof.
  unfold add_session. destruct create_browser as [b|e]; simpl; [|lia].
  rewrite map_size_insert. destruct (_ !! _); simpl; lia.
Qed.

Lemma size_add_sessions (create_browser : nat → outcome WebDriver)
    (l : list nat) p :
  (size (_sessions (foldl (λ q k, add_session (create_browser k) q) p l))
   ≤ size (_sessions p) + length l)%nat.
Proof.
  revert p. induction l as [|k l IH]; intros p; simpl; [lia|].
  etrans; [apply IH|]. pose proof (size_add_session (create_browser k) p). lia.
Qed.

Lemma size_step a p :
  (min_pool_size p ≤ max_pool_size p)%nat →
  (size (_sessions p) ≤ max_pool_size p)%nat →
  (size (_sessions (step a p)) ≤ max_pool_size p)%nat.
Proof.
  intros Hmin Hsize. destruct a; simpl.
  - unfold get_session_attempt.
    destruct (find_available p order) as [[sid r]|]; [done|].
    destruct (size (_sessions p) <? max_pool_size p)%nat eqn:Hlt; [|done].
    apply Nat.ltb_lt in Hlt.
    destruct create_browser as [b|e]; simpl; [|lia].
    rewrite map_size_insert. destruct (_ !! _); simpl; lia.
  - unfold return_session. destruct (store p !! session) as [s|]; [|done].
    case_decide; [|done]. destruct (is_healthy _); [done|].
    etrans; [apply size_remove|done].
  - etrans; [apply size_remove_all|done].
  - unfold _maintain_pool_size.
    destruct (size (_sessions p) <? min_pool_size p)%nat eqn:Hlt; [|done].
    apply Nat.ltb_lt in Hlt.
    etrans; [apply size_add_sessions|]. rewrite length_seq. lia.
  - done.
  - done.
  - etrans; [apply size_remove_all|done].
Qed.

Lemma size_run acts p :
  (min_pool_size p ≤ max_pool_size p)%nat →
  (size (_sessions p) ≤ max_pool_size p)%nat →
  (size (_sessions (run acts p)) ≤ max_pool_size p)%nat.
Proof.
  revert p. induction acts as [|a acts IH]; intros p Hmin Hsize; [done|].
  simpl. destruct (same_config_step a p) as (Hmax & Hmin' & _).
  rewrite <- Hmax. apply IH.
  - by rewrite Hmax, Hmin'.
  - rewrite Hmax. by apply size_step.
Qed.

(** C3. In every state [p] that a pool can reach, if the configured
    minimum size is at most the configured maximum size then, after any
    sequence of acquire attempts, releases and janitor steps (clean-up,
    refill), and also of authentications, waits and shutdowns, the mapping
    from ids to sessions holds at most [max_pool_size] sessions. *)
Theorem live_sessions_bounded config p acts :
  reachable config p →
  (min_pool_size p ≤ max_pool_size p)%nat →
  (size (_sessions (run acts p)) ≤ max_pool_size p)%nat.
Proof.
  intros (now & acts0 & ->) Hmin.
  destruct (same_config_run acts0 (__init__ config now)) as (Hmax & Hmin' & _).
  apply size_run; [done|]. rewrite Hmax. apply size_run.
  - by rewrite <- Hmax, <- Hmin'.
  - simpl. rewrite map_size_empty. lia.
Qed.

(** ** Objects only accumulate errors *)

Lemma store_grows_refl st : store_grows st st.
Proof. intros r s Hs. eauto. Qed.

Lemma store_grows_trans st1 st2 st3 :
  store_grows st1 st2 → store_grows st2 st3 → store_grows st1 st3.
Proof.
  intros H12 H23 r s Hs. destruct (H12 _ _ Hs) as (s2 & Hs2 & ? & ? & ?).
  destruct (H23 _ _ Hs2) as (s3 & Hs3 & ? & ? & ?).
  exists s3. repeat split; [done|congruence..|lia].
Qed.

Lemma store_grows_alter f r st : benign f → store_grows st (alter f r st).
Proof.
  intros Hf r0 s Hs. destruct (decide (r = r0)) as [->|Hne].
  - exists (f s). rewrite list_lookup_alter_eq, Hs.
    destruct (Hf s) as (? & ? & _ & ?). done.
  - exists s. by rewrite list_lookup_alter_ne.
Qed.

Lemma store_grows_app st l : store_grows st (st ++ l).
Proof. intros r s Hs. exists s. by rewrite lookup_app_l_Some with (x := s). Qed.

Lemma store_remove_all ids p : store (remove_all ids p) = store p.
Proof.
  revert p. induction ids as [|sid ids IH]; intros p; [done|].
  simpl. by rewrite IH, store_remove.
Qed.

Lemma store_grows_attempt order create_browser p :
  store_grows (store p) (store (get_session_attempt order create_browser p).1).
Proof.
  unfold get_session_attempt.
  destruct (find_available p order) as [[sid r]|].
  - apply store_grows_alter, benign_lend.
  - destruct (size (_sessions p) <? max_pool_size p)%nat; [|apply store_grows_refl].
    destruct create_browser as [b|e]; [|apply store_grows_refl]. simpl.
    eapply store_grows_trans; [apply store_grows_app|].
    apply store_grows_alter, benign_lend.
Qed.

Lemma store_grows_return session had_error p :
  store_grows (store p) (store (return_session session had_error p)).
Proof.
  unfold return_session.
  destruct (store p !! session) as [s|]; [|apply store_grows_refl].
  case_decide; [|apply store_grows_refl].
  destruct (is_healthy _); [|rewrite store_remove];
    apply store_grows_alter, benign_released.
Qed.

Lemma store_grows_maintain create_browser p :
  store_grows (store p) (store (_maintain_pool_size create_browser p)).
Proof.
  unfold _maintain_pool_size.
  destruct (size (_sessions p) <? min_pool_size p)%nat; [|apply store_grows_refl].
  generalize (seq 0 (min_pool_size p - size (_sessions p))). intros l.
  revert p. induction l as [|k l IH]; intros p; [apply store_grows_refl|].
  simpl. eapply store_grows_trans; [|apply IH].
  unfold add_session. destruct (create_browser k); [|apply store_grows_refl].
  apply store_grows_app.
Qed.

Lemma store_grows_step a p : store_grows (store p) (store (step a p)).
Proof.
  destruct a; simpl.
  - apply store_grows_attempt.
  - apply store_grows_return.
  - unfold _cleanup_expired_sessions. rewrite store_remove_all. apply store_grows_refl.
  - apply store_grows_maintain.
  - apply store_grows_alter, benign_authenticated.
  - apply store_grows_refl.
  - unfold shutdown. rewrite store_remove_all. apply store_grows_refl.
Qed.

Lemma store_grows_run acts p : store_grows (store p) (store (run acts p)).
Proof.
  revert p. induction acts as [|a acts IH]; intros p; [apply store_grows_refl|].
  eapply store_grows_trans; [apply (store_grows_step a)|apply IH].
Qed.

(** ** What an acquisition returns *)

Lemma sleep_0 p : sleep 0 p = p.
Proof. destruct p. unfold sleep, with_clock. simpl. f_equal. lia. Qed.

Lemma sleep_sleep d1 d2 p : sleep d2 (sleep d1 p) = sleep (d1 + d2) p.
Proof. unfold sleep, with_clock. simpl. f_equal. lia. Qed.

Lemma attempt_None order create_browser p p' :
  get_session_attempt order create_browser p = (p', None) → p' = p.
Proof.
  unfold get_session_attempt.
  destruct (find_available p order) as [[sid r]|]; [done|].
  destruct (size (_sessions p) <? max_pool_size p)%nat; [|congruence].
  destruct create_browser; simpl; congruence.
Qed.

Lemma attempt_Some order create_browser p p' r :
  get_session_attempt order create_browser p = (p', Some r) →
  (∃ sid s, sid ∈ order ∧ _sessions p !! sid = Some r
     ∧ store p !! r = Some s ∧ is_healthy s = true
     ∧ p' = lend r (with_available (_available_sessions p ∖ {[sid]}) p))
  ∨ (find_available p order = None ∧ r = length (store p)
     ∧ (size (_sessions p) < max_pool_size p)%nat
     ∧ ∃ b, create_browser = Value b
       ∧ p' = lend r
                (with_sessions
                   (<[make_session_id (clock p) r := r]> (_sessions p))
                   (_create_session (Value b) p).1)).
Proof.
  unfold get_session_attempt.
  destruct (find_available p order) as [[sid r0]|] eqn:Hfind.
  - intros [= <- <-]. left.
    apply find_available_Some in Hfind as (Hin & Hm & s & Hs & Hh).
    exists sid, s. done.
  - destruct (size (_sessions p) <? max_pool_size p)%nat eqn:Hlt; [|done].
    apply Nat.ltb_lt in Hlt.
    destruct create_browser as [b|e]; [|done]. simpl.
    intros [= <- <-]. right. repeat split; [done|]. exists b. split; [done|].
    unfold session_id_of. simpl. by rewrite list_lookup_middle.
Qed.

(** A session handed out is healthy, busy and in the mapping. *)
Lemma attempt_Some_healthy order create_browser p p' r :
  get_session_attempt order create_browser p = (p', Some r) →
  ∃ s sid, store p' !! r = Some s ∧ is_busy s = true ∧ is_healthy s = true
    ∧ _sessions p' !! sid = Some r.
Proof.
  intros [(sid & s & _ & Hm & Hs & Hh & ->)
         |(_ & -> & _ & b & -> & ->)]%attempt_Some.
  - exists (mark_used (clock p) (set_busy true s)), sid. simpl.
    by rewrite list_lookup_alter_eq, Hs.
  - eexists _, _. simpl. rewrite list_lookup_alter_eq, list_lookup_middle by done.
    simpl. split; [done|]. repeat split. apply lookup_insert_eq.
Qed.

(** The loop of [get_session] amounts to one successful attempt after some
    sleeps, or to sleeps only until the timeout has elapsed. *)
Lemma loop_result fuel start timeout order create_browser k p p' res :
  get_session_loop fuel start timeout order create_browser k p = Some (p', res) →
  ∃ n : nat,
    match res with
    | Some r =>
        clock p + Z.of_nat n * poll_interval - start < timeout
        ∧ get_session_attempt order (create_browser (k + n)%nat)
            (sleep (Z.of_nat n * poll_interval) p) = (p', Some r)
    | None =>
        p' = sleep (Z.of_nat n * poll_interval) p
        ∧ timeout ≤ clock p' - start
    end.
Proof.
  revert k p. induction fuel as [|fuel IH]; intros k p; simpl.
  - destruct (clock p - start <? timeout) eqn:Hlt; [done|].
    intros [= <- <-]. exists 0%nat. rewrite sleep_0. split; [done|]. lia.
  - destruct (clock p - start <? timeout) eqn:Hlt.
    + destruct (get_session_attempt order (create_browser k) p)
        as [p1 [r|]] eqn:Hattempt.
      * intros [= <- <-]. exists 0%nat.
        rewrite sleep_0, Nat.add_0_r. split; [lia|done].
      * apply attempt_None in Hattempt as ->.
        intros (n & Hn)%IH. exists (S n).
        rewrite sleep_sleep in Hn. simpl in Hn.
        replace (Z.of_nat (S n) * poll_interval)
          with (poll_interval + Z.of_nat n * poll_interval) by lia.
        replace (k + S n)%nat with (S k + n)%nat by lia.
        destruct res; [|done]. destruct Hn as [Hn1 Hn2]. split; [lia|done].
    + intros [= <- <-]. exists 0%nat. rewrite sleep_0. split; [done|]. lia.
Qed.

Lemma loop_fuel_enough fuel start timeout order create_browser k p :
  timeout - (clock p - start) ≤ Z.of_nat fuel * poll_interval →
  is_Some (get_session_loop fuel start timeout order create_browser k p).
Proof.
  revert k p. induction fuel as [|fuel IH]; intros k p Hfuel; simpl.
  - destruct (clock p - start <? timeout) eqn:Hlt; [lia|eauto].
  - destruct (clock p - start <? timeout) eqn:Hlt; [|eauto].
    destruct (get_session_attempt order (create_browser k) p)
      as [p1 [r|]] eqn:Hattempt; [eauto|].
    apply attempt_None in Hattempt as ->. apply IH. simpl. lia.
Qed.

(** [get_session] always leaves its loop through the loop's own exits. *)
Lemma get_session_loop_total timeout order create_browser p :
  get_session_loop (get_session_fuel timeout) (clock p) timeout order
    create_browser 0 p
  = Some (get_session timeout order create_browser p).
Proof.
  unfold get_session.
  destruct (loop_fuel_enough (get_session_fuel timeout) (clock p) timeout order
              create_browser 0 p) as [res ->]; [|done].
  unfold get_session_fuel, poll_interval.
  destruct (decide (timeout ≤ 0)) as [Hneg|Hpos]; [lia|].
  rewrite Nat2Z.inj_succ, Z2Nat.id by (apply Z.div_pos; lia).
  pose proof (Z.mul_succ_div_gt timeout 100000). lia.
Qed.

Lemma get_session_Some timeout order create_browser p p' r :
  get_session timeout order create_browser p = (p', Some r) →
  ∃ n : nat,
    Z.of_nat n * poll_interval < timeout
    ∧ get_session_attempt order (create_browser n)
        (sleep (Z.of_nat n * poll_interval) p) = (p', Some r).
Proof.
  intros Hget. pose proof (get_session_loop_total timeout order create_browser p) as Hloop.
  rewrite Hget in Hloop. apply loop_result in Hloop as (n & Hlt & Hattempt).
  exists n. split; [lia|done].
Qed.

Lemma get_session_None timeout order create_browser p p' :
  get_session timeout order create_browser p = (p', None) →
  ∃ n : nat, p' = sleep (Z.of_nat n * poll_interval) p
    ∧ timeout ≤ clock p' - clock p.
Proof.
  intros Hget. pose proof (get_session_loop_total timeout order create_browser p) as Hloop.
  rewrite Hget in Hloop. by apply loop_result in Hloop.
Qed.

Lemma get_session_first timeout order create_browser p p' r :
  0 < timeout →
  get_session_attempt order (create_browser 0%nat) p = (p', Some r) →
  get_session timeout order create_browser p = (p', Some r).
Proof.
  intros Hpos Hattempt. unfold get_session, get_session_fuel. simpl.
  rewrite Z.sub_diag. destruct (0 <? timeout) eqn:Hlt; [|lia].
  by rewrite Hattempt.
Qed.

(** ** Error budget *)

(** C2, as stated, fails: the pool never reads an error budget from its
    configuration.  With a configured budget of two, a session that has
    two errors is still healthy and the next acquisition hands it out
    again. *)
Lemma configured_budget_is_ignored :
  ∃ s, store two_errors !! 0%nat = Some s
    ∧ (2 ≤ error_count s)%nat ∧ is_healthy s = true
    ∧ (get_session 30000000 (elements (_available_sessions two_errors))
         (λ _, Exc (WebDriverException "no browser")) two_errors).2
      = Some 0%nat.
Proof. vm_compute. eexists. repeat split; lia. Qed.

(** C2, amended.  In every state a pool built from any configuration can
    reach, a session object is unhealthy iff its error count is at least
    five, the default of the dataclass; and a session whose error count has
    reached five is never again returned by [get_session], whatever
    happens to the pool in between. *)
Theorem error_budget_is_five config p :
  reachable config p →
  (∀ r s, store p !! r = Some s →
     (is_healthy s = false ↔ (5 ≤ error_count s)%nat))
  ∧ (∀ r s, store p !! r = Some s → (5 ≤ error_count s)%nat →
       ∀ acts timeout order create_browser,
         (get_session timeout order create_browser (run acts p)).2 ≠ Some r).
Proof.
  intros Hreach. pose proof (reachable_consistent _ _ Hreach) as Hc. split.
  - intros r s Hs. unfold is_healthy.
    rewrite (budget_default _ _ _ Hc _ _ Hs), Nat.ltb_ge. done.
  - intros r s Hs Herr acts timeout order create_browser.
    destruct (store_grows_run acts p _ _ Hs) as (s' & Hs' & _ & Hmax & Hle).
    rewrite (budget_default _ _ _ Hc _ _ Hs) in Hmax.
    destruct (get_session _ _ _ _) as [p' res] eqn:Hget. simpl. intros ->.
    apply get_session_Some in Hget as (n & _ & Hattempt).
    apply attempt_Some in Hattempt
      as [(sid & s0 & _ & _ & Hs0 & Hh & _)|(_ & Hlen & _)].
    + simpl in Hs0. rewrite Hs' in Hs0. injection Hs0 as <-.
      unfold is_healthy in Hh. apply Nat.ltb_lt in Hh. lia.
    + simpl in Hlen. apply lookup_lt_Some in Hs'. lia.
Qed.

(** ** Retirement *)

Lemma sessions_remove_all ids p sid :
  _sessions (remove_all ids p) !! sid
  = if decide (sid ∈ ids) then None else _sessions p !! sid.
Proof.
  revert p. induction ids as [|x ids IH]; intros p.
  - by rewrite decide_False by set_solver.
  - change (remove_all (x :: ids) p) with (remove_all ids (_remove_session x p)).
    rewrite IH, sessions_remove.
    destruct (decide (sid ∈ ids)) as [Hin|Hnin].
    + by rewrite decide_True by set_solver.
    + destruct (decide (sid = x)) as [->|Hne].
      * rewrite decide_True by set_solver. apply lookup_delete_eq.
      * rewrite decide_False by set_solver. by apply lookup_delete_ne.
Qed.

Lemma available_remove_all ids p sid :
  sid ∈ _available_sessions (remove_all ids p)
  ↔ sid ∈ _available_sessions p ∧ (sid ∈ ids → _sessions p !! sid = None).
Proof.
  revert p. induction ids as [|x ids IH]; intros p; simpl.
  - set_solver.
  - rewrite IH, sessions_remove, available_remove.
    destruct (decide (sid = x)) as [->|Hne].
    + rewrite lookup_delete_eq.
      destruct (_sessions p !! x) eqn:Hx; set_solver.
    + rewrite lookup_delete_ne by done.
      destruct (_sessions p !! x) eqn:Hx; set_solver.
Qed.

Lemma quit_remove sid p b :
  b ∈ quit_browsers (_remove_session sid p)
  ↔ b ∈ quit_browsers p
    ∨ ∃ r s, _sessions p !! sid = Some r ∧ store p !! r = Some s
        ∧ browser s = b.
Proof.
  unfold _remove_session. destruct (_sessions p !! sid) as [r|] eqn:Hm.
  - destruct (store p !! r) as [s|] eqn:Hs; simpl.
    + rewrite elem_of_union, elem_of_singleton. split.
      * intros [->|?]; [right; eauto|by left].
      * intros [?|(r0 & s0 & ? & ? & ?)]; [by right|left]. by simplify_eq.
    + split; [by left|]. intros [?|(r0 & s0 & ? & ? & ?)]; [done|]. by simplify_eq.
  - split; [by left|]. by intros [?|(r0 & s0 & ? & ? & ?)].
Qed.

Lemma quit_remove_all ids p b :
  b ∈ quit_browsers (remove_all ids p)
  ↔ b ∈ quit_browsers p
    ∨ ∃ sid r s, sid ∈ ids ∧ _sessions p !! sid = Some r
        ∧ store p !! r = Some s ∧ browser s = b.
Proof.
  revert p. induction ids as [|x ids IH]; intros p; simpl.
  - split; [by left|]. intros [?|(sid & r & s & Hin & _)]; [done|].
    by apply elem_of_nil in Hin.
  - rewrite IH, quit_remove, sessions_remove, store_remove. split.
    + intros [[?|(r & s & Hm & Hs & Hb)]|(sid & r & s & Hin & Hm & Hs & Hb)].
      * by left.
      * right. exists x, r, s. split; [by left|done].
      * apply lookup_delete_Some in Hm as [_ Hm].
        right. exists sid, r, s. split; [by right|done].
    + intros [?|(sid & r & s & Hin & Hm & Hs & Hb)]; [by left; left|].
      destruct (decide (sid = x)) as [->|Hne].
      * left. right. eauto.
      * right. exists sid, r, s. rewrite lookup_delete_ne by done.
        split; [|done]. set_solver.
Qed.

Lemma elem_of_expired p sid :
  sid ∈ expired_sessions p
  ↔ ∃ r, _sessions p !! sid = Some r ∧ retire_due p r = true.
Proof.
  unfold expired_sessions. rewrite list_elem_of_fmap. split.
  - intros ([sid0 r] & -> & [Hdue Hin]%list_elem_of_filter).
    apply elem_of_map_to_list in Hin. simpl in *. exists r. split; [done|].
    by apply Is_true_true.
  - intros (r & Hm & Hdue). exists (sid, r). split; [done|].
    apply list_elem_of_filter. split; [by apply Is_true_true|].
    by apply elem_of_map_to_list.
Qed.

(** C1, as stated, fails: the clean-up pass does not look at the busy
    flag.  A session that is leased ([is_busy = true]) and older than the
    maximum session age is removed from the mapping and its browser is
    quit while the lease is live. *)
Lemma cleanup_retires_leased_session :
  store leased_for_three_hours !! 0%nat = Some leased_session
  ∧ is_busy leased_session = true
  ∧ _sessions leased_for_three_hours !! "session_0_0" = Some 0%nat
  ∧ _sessions (_cleanup_expired_sessions leased_for_three_hours)
      !! "session_0_0" = None
  ∧ browser leased_session
      ∈ quit_browsers (_cleanup_expired_sessions leased_for_three_hours).
Proof.
  repeat split; vm_compute; reflexivity.
Qed.

(** C1, amended.  A clean-up pass decides on each session of the mapping,
    leased or not, by its age, its idle time and its health alone.  A
    session that is neither expired, nor idle too long, nor unhealthy stays
    in the mapping and keeps its place in, or out of, the available set; a
    session that is any of the three is removed from the mapping and from
    the available set and its browser is quit.  The pass changes no session
    object, and it quits exactly the browsers of the sessions it removes. *)
Theorem cleanup_retires_by_age_idleness_health p sid r s :
  _sessions p !! sid = Some r →
  store p !! r = Some s →
  (if is_expired (clock p) s (max_session_age p)
      || is_idle (clock p) s (max_idle_time p)
      || negb (is_healthy s)
   then (_sessions (_cleanup_expired_sessions p) !! sid = None
         ∧ (sid ∉ _available_sessions (_cleanup_expired_sessions p))
         ∧ browser s ∈ quit_browsers (_cleanup_expired_sessions p))
   else (_sessions (_cleanup_expired_sessions p) !! sid = Some r
         ∧ (sid ∈ _available_sessions (_cleanup_expired_sessions p)
            ↔ sid ∈ _available_sessions p)))
  ∧ store (_cleanup_expired_sessions p) = store p
  ∧ ∀ b, b ∈ quit_browsers (_cleanup_expired_sessions p)
      ↔ b ∈ quit_browsers p
        ∨ ∃ sid0 r0 s0, _sessions p !! sid0 = Some r0
            ∧ store p !! r0 = Some s0 ∧ retire_due p r0 = true
            ∧ browser s0 = b.
Proof.
  intros Hm Hs. unfold _cleanup_expired_sessions.
  assert (∀ b, b ∈ quit_browsers (remove_all (expired_sessions p) p)
      ↔ b ∈ quit_browsers p
        ∨ ∃ sid0 r0 s0, _sessions p !! sid0 = Some r0
            ∧ store p !! r0 = Some s0 ∧ retire_due p r0 = true
            ∧ browser s0 = b) as Hquit.
  { intros b. rewrite quit_remove_all. split.
    - intros [?|(sid0 & r0 & s0 & Hin & Hm0 & Hs0 & Hb)]; [by left|right].
      apply elem_of_expired in Hin as (r1 & Hm1 & Hdue).
      rewrite Hm0 in Hm1. injection Hm1 as <-. by exists sid0, r0, s0.
    - intros [?|(sid0 & r0 & s0 & Hm0 & Hs0 & Hdue & Hb)]; [by left|right].
      exists sid0, r0, s0. split; [|done]. apply elem_of_expired. eauto. }
  split; [|split; [apply store_remove_all|done]].
  assert (retire_due p r
          = is_expired (clock p) s (max_session_age p)
            || is_idle (clock p) s (max_idle_time p)
            || negb (is_healthy s)) as <-.
  { unfold retire_due. by rewrite Hs. }
  destruct (retire_due p r) eqn:Hdue.
  - assert (sid ∈ expired_sessions p) as Hin by (apply elem_of_expired; eauto).
    split; [|split].
    + rewrite sessions_remove_all. by rewrite decide_True.
    + rewrite available_remove_all. intros [_ Hnone].
      specialize (Hnone Hin). congruence.
    + apply Hquit. right. by exists sid, r, s.
  - assert (sid ∉ expired_sessions p) as Hnin.
    { intros (r1 & Hm1 & Hdue1)%elem_of_expired. congruence. }
    split.
    + rewrite sessions_remove_all. by rewrite decide_False.
    + rewrite available_remove_all. split; [by intros [? _]|].
      intros Ha. split; [done|]. intros ?. done.
Qed.

(** ** Shutdown *)

Lemma shutdown_event_remove_all ids p :
  _shutdown_event (remove_all ids p) = _shutdown_event p.
Proof.
  revert p. induction ids as [|sid ids IH]; intros p; [done|].
  simpl. rewrite IH. unfold _remove_session.
  destruct (_sessions p !! sid) as [r|]; [|done]. by destruct (store p !! r).
Qed.

Lemma sessions_shutdown p : _sessions (shutdown p) = ∅.
Proof.
  apply map_eq. intros sid. unfold shutdown.
  rewrite sessions_remove_all, lookup_empty. case_decide as Hin; [done|].
  simpl. destruct (_sessions p !! sid) as [r|] eqn:Hm; [|done].
  exfalso. apply Hin. apply list_elem_of_fmap. exists (sid, r).
  split; [done|]. by apply elem_of_map_to_list.
Qed.

Lemma available_shutdown p :
  pool_consistent p → _available_sessions (shutdown p) = ∅.
Proof.
  intros Hc. apply set_eq. intros sid. unfold shutdown.
  rewrite available_remove_all. simpl. split; [|set_solver].
  intros [Ha Hnone]. destruct (available_live _ _ _ Hc _ Ha) as [r Hr].
  rewrite Hnone in Hr; [done|].
  apply list_elem_of_fmap. exists (sid, r).
  split; [done|]. by apply elem_of_map_to_list.
Qed.

Lemma find_available_empty p order :
  _sessions p = ∅ → find_available p order = None.
Proof.
  intros Hm. induction order as [|sid order IH]; simpl; [done|].
  by rewrite Hm, lookup_empty.
Qed.

(** C5, as stated, fails: [get_session] never reads the shutdown event.
    On a pool that has been shut down (event set, mapping empty) an
    acquisition creates a new session and returns it. *)
Lemma acquire_after_shutdown_creates :
  _shutdown_event shut_down_pool = true
  ∧ _sessions shut_down_pool = ∅
  ∧ (get_session 30000000 [] (λ _, Value 9%nat) shut_down_pool).2
    = Some 1%nat
  ∧ size (_sessions
            (get_session 30000000 [] (λ _, Value 9%nat) shut_down_pool).1)
    = 1%nat.
Proof. repeat split; vm_compute; reflexivity. Qed.

(** C5, amended.  Shutting a reachable pool down sets the shutdown event,
    empties the mapping and the available set and quits the browser of
    every session that was in the mapping.  [get_session] does not consult
    the event: called afterwards with a positive timeout on a pool whose
    maximum size is positive, with a browser factory that succeeds, it
    creates a new session, returns it, and the pool holds one session
    again. *)
Theorem shutdown_drains_but_acquire_still_creates
    config p timeout order create_browser b :
  reachable config p →
  0 < timeout →
  (0 < max_pool_size p)%nat →
  create_browser 0%nat = Value b →
  _shutdown_event (shutdown p) = true
  ∧ _sessions (shutdown p) = ∅
  ∧ _available_sessions (shutdown p) = ∅
  ∧ (∀ sid r s, _sessions p !! sid = Some r → store p !! r = Some s →
       browser s ∈ quit_browsers (shutdown p))
  ∧ ∃ p', get_session timeout order create_browser (shutdown p)
          = (p', Some (length (store p)))
      ∧ size (_sessions p') = 1%nat
      ∧ _shutdown_event p' = true.
Proof.
  intros Hreach Hpos Hmax Hcreate.
  pose proof (reachable_consistent _ _ Hreach) as Hc.
  assert (_shutdown_event (shutdown p) = true) as Hflag.
  { unfold shutdown. by rewrite shutdown_event_remove_all. }
  assert (store (shutdown p) = store p) as Hstore.
  { unfold shutdown. by rewrite store_remove_all. }
  split; [done|]. split; [apply sessions_shutdown|].
  split; [by apply available_shutdown|]. split.
  - intros sid r s Hm Hs. unfold shutdown. rewrite quit_remove_all. right.
    exists sid, r, s. simpl. split; [|done].
    apply list_elem_of_fmap. exists (sid, r).
    split; [done|]. by apply elem_of_map_to_list.
  - destruct (same_config_step Shutdown p) as (Hmax' & _). simpl in Hmax'.
    eexists. split.
    + apply get_session_first; [done|]. unfold get_session_attempt.
      rewrite find_available_empty by apply sessions_shutdown.
      rewrite sessions_shutdown, map_size_empty, Hmax'.
      destruct (0 <? max_pool_size p)%nat eqn:Hlt;
        [|apply Nat.ltb_ge in Hlt; lia].
      rewrite Hcreate. simpl. by rewrite Hstore.
    + simpl. rewrite sessions_shutdown, insert_empty, map_size_singleton.
      done.
Qed.

(** ** Acquire then release *)

Lemma find_available_exists p order sid r s :
  sid ∈ order → _sessions p !! sid = Some r → store p !! r = Some s →
  is_healthy s = true → is_Some (find_available p order).
Proof.
  intros Hin Hm Hs Hh. induction order as [|sid0 order IH]; simpl.
  - by apply elem_of_nil in Hin.
  - destruct (_sessions p !! sid0) as [r0|] eqn:Hm0;
      [destruct (store p !! r0) as [s0|] eqn:Hs0;
         [destruct (is_healthy s0) eqn:Hh0; [eauto|]|]|];
      apply IH; apply elem_of_cons in Hin as [->|?]; try done; congruence.
Qed.

Lemma alter_as_insert {A} (f : A → A) (l : list A) i x :
  l !! i = Some x → alter f i l = <[i := f x]> l.
Proof.
  intros Hi. apply list_eq. intros j. destruct (decide (i = j)) as [->|Hne].
  - rewrite list_lookup_alter_eq, Hi, list_lookup_insert_eq; [done|].
    by eapply lookup_lt_Some.
  - by rewrite list_lookup_alter_ne, list_lookup_insert_ne.
Qed.

(** A single lease round trip on an empty pool: the acquisition creates
    the session and leaves the available set empty; the release makes the
    session available, used once and without error. *)
Example single_lease_round_trip :
  let acquired := get_session 1000000 [] (λ _, Value 7%nat) small_pool in
  let released := return_session 0%nat false acquired.1 in
  acquired.2 = Some 0%nat
  ∧ elements (_available_sessions acquired.1) = []
  ∧ size (_sessions acquired.1) = 1%nat
  ∧ elements (_available_sessions released) = ["session_0_0"]
  ∧ size (_sessions released) = 1%nat
  ∧ (usage_count <$> store released !! 0%nat) = Some 1%nat
  ∧ (error_count <$> store released !! 0%nat) = Some 0%nat.
Proof. repeat split; vm_compute; reflexivity. Qed.

(** C8.  In every reachable pool state with a healthy idle session in the
    available set, an acquisition (positive timeout) hands out such a
    session: healthy, not busy, its id in the available set; and releasing
    it without error gives back the initial pool (same mapping, same
    available set, same flags, clock and browsers) except that this one
    session object has its usage count incremented and its last-use time
    set: it is [mark_used] of what it was. *)
Theorem acquire_release_roundtrip config p timeout order create_browser :
  reachable config p →
  0 < timeout →
  order ≡ₚ elements (_available_sessions p) →
  (∃ sid r s, sid ∈ _available_sessions p ∧ _sessions p !! sid = Some r
     ∧ store p !! r = Some s ∧ is_healthy s = true) →
  ∃ r s,
    (get_session timeout order create_browser p).2 = Some r
    ∧ store p !! r = Some s
    ∧ is_healthy s = true ∧ is_busy s = false
    ∧ session_id s ∈ _available_sessions p
    ∧ _sessions p !! session_id s = Some r
    ∧ return_session r false (get_session timeout order create_browser p).1
      = with_store (<[r := mark_used (clock p) s]> (store p)) p.
Proof.
  intros Hreach Hpos Hperm (sid0 & r0 & s0 & Ha0 & Hm0 & Hs0 & Hh0).
  pose proof (reachable_consistent _ _ Hreach) as Hc.
  assert (sid0 ∈ order) as Hin0 by (rewrite Hperm; by apply elem_of_elements).
  destruct (find_available_exists _ _ _ _ _ Hin0 Hm0 Hs0 Hh0) as [[sid r] Hfind].
  pose proof Hfind as (Hin & Hm & s & Hs & Hh)%find_available_Some.
  assert (sid ∈ _available_sessions p) as Ha.
  { apply elem_of_elements. by rewrite <- Hperm. }
  destruct (key_is_id _ _ _ Hc _ _ Hm) as (s' & Hs' & Hid).
  rewrite Hs in Hs'. injection Hs' as <-.
  pose proof (available_idle _ _ _ Hc _ _ _ Ha Hm Hs) as Hidle.
  assert (get_session timeout order create_browser p
          = (lend r (with_available (_available_sessions p ∖ {[sid]}) p), Some r))
    as ->.
  { apply get_session_first; [done|]. unfold get_session_attempt. by rewrite Hfind. }
  exists r, s. rewrite Hid. repeat split; try done. simpl.
  unfold return_session. simpl. rewrite list_lookup_alter_eq, Hs. simpl.
  rewrite Hid, decide_True by eauto.
  assert (is_healthy (set_busy false (mark_used (clock p) (set_busy true s)))
          = true) as -> by done.
  unfold lend, with_available, with_store. simpl. f_equal.
  - symmetry. by apply union_difference_singleton_L.
  - rewrite list_alter_alter_eq, (alter_as_insert _ _ _ s) by done.
    f_equal. destruct s. simpl in *. by subst.
Qed.

(** ** Acquire timeout *)

(** C4, as stated, fails: on timeout [SessionPool.get_session] returns the
    sentinel [None], not an error; only the scoped lease of
    [SessionManager] raises, and what it raises is a plain [RuntimeError]. *)
Lemma acquire_timeout_is_none :
  (get_session 100000 [] (λ _, Value 8%nat) exhausted_pool).2 = None
  ∧ (SessionManager_get_session [] (λ _, Value 8%nat)
       (λ _ q, (q, Value tt)) exhausted_pool).2
    = Exc (RuntimeError "Failed to get session from pool").
Proof. split; vm_compute; reflexivity. Qed.

(** C4, amended.  [SessionPool.get_session(timeout)] always comes back
    through one of the two exits of its loop.  It returns a session, which
    is then healthy, marked busy and in the mapping; or it returns [None],
    and then at least [timeout] has elapsed on the clock while nothing else
    in the pool has changed.  The scoped lease of [SessionManager] turns
    that [None] into [RuntimeError("Failed to get session from pool")]. *)
Theorem get_session_session_or_none timeout order create_browser p :
  get_session_loop (get_session_fuel timeout) (clock p) timeout order
    create_browser 0 p
  = Some (get_session timeout order create_browser p)
  ∧ match (get_session timeout order create_browser p).2 with
    | Some r =>
        ∃ s sid,
          store (get_session timeout order create_browser p).1 !! r = Some s
          ∧ is_busy s = true ∧ is_healthy s = true
          ∧ _sessions (get_session timeout order create_browser p).1 !! sid
            = Some r
    | None =>
        timeout ≤ clock (get_session timeout order create_browser p).1 - clock p
        ∧ ∃ n : nat,
            (get_session timeout order create_browser p).1
            = sleep (Z.of_nat n * poll_interval) p
    end
  ∧ ∀ (A : Type) (body : ref → SessionPool → SessionPool * outcome A),
      (get_session 30000000 order create_browser p).2 = None →
      (SessionManager_get_session order create_browser body p).2
      = Exc (RuntimeError "Failed to get session from pool").
Proof.
  split; [apply get_session_loop_total|]. split.
  - destruct (get_session timeout order create_browser p) as [p' [r|]] eqn:Hget;
      simpl.
    + apply get_session_Some in Hget as (n & _ & Hattempt).
      by apply attempt_Some_healthy in Hattempt.
    + apply get_session_None in Hget as (n & -> & Hle). eauto.
  - intros A body. unfold SessionManager_get_session.
    destruct (get_session 30000000 order create_browser p) as [p' [r|]];
      simpl; [done|]. done.
Qed.

(** ** The theorems at concrete pools *)

Lemma live_sessions_bounded_witness :
  reachable ∅ leased_for_three_hours
  ∧ (min_pool_size leased_for_three_hours
     ≤ max_pool_size leased_for_three_hours)%nat
  ∧ (size (_sessions
             (run [Cleanup; Maintain (λ k, Value (10 + k)%nat)]
                leased_for_three_hours))
     ≤ max_pool_size leased_for_three_hours)%nat.
Proof.
  assert (reachable ∅ leased_for_three_hours) as Hreach.
  { exists 0, [Acquire [] (Value 7%nat); Elapse 10800000000%N]. reflexivity. }
  assert (min_pool_size leased_for_three_hours
          ≤ max_pool_size leased_for_three_hours)%nat as Hmin.
  { vm_compute. lia. }
  split; [exact Hreach|]. split; [exact Hmin|].
  exact (live_sessions_bounded ∅ leased_for_three_hours _ Hreach Hmin).
Defined.

Lemma error_budget_is_five_witness :
  reachable budget_config two_errors
  ∧ (∀ r s, store two_errors !! r = Some s →
       (is_healthy s = false ↔ (5 ≤ error_count s)%nat))
  ∧ (∀ r s, store two_errors !! r = Some s → (5 ≤ error_count s)%nat →
       ∀ acts timeout order create_browser,
         (get_session timeout order create_browser (run acts two_errors)).2
         ≠ Some r).
Proof.
  assert (reachable budget_config two_errors) as Hreach.
  { exists 0, [Acquire [] (Value 7%nat); Release 0%nat true;
               Acquire ["session_0_0"] (Exc (WebDriverException "no browser"));
               Release 0%nat true].
    reflexivity. }
  split; [exact Hreach|].
  exact (error_budget_is_five budget_config two_errors Hreach).
Defined.

Lemma cleanup_retires_by_age_idleness_health_witness :
  _sessions leased_for_three_hours !! "session_0_0" = Some 0%nat
  ∧ store leased_for_three_hours !! 0%nat = Some leased_session
  ∧ _sessions (_cleanup_expired_sessions leased_for_three_hours)
      !! "session_0_0" = None.
Proof.
  assert (_sessions leased_for_three_hours !! "session_0_0" = Some 0%nat)
    as Hm by (vm_compute; reflexivity).
  assert (store leased_for_three_hours !! 0%nat = Some leased_session)
    as Hs by (vm_compute; reflexivity).
  split; [exact Hm|]. split; [exact Hs|].
  exact (proj1 (proj1 (cleanup_retires_by_age_idleness_health
                         leased_for_three_hours "session_0_0" 0%nat
                         leased_session Hm Hs))).
Defined.

Lemma shutdown_drains_but_acquire_still_creates_witness :
  reachable ∅ lent_and_returned
  ∧ 0 < 30000000
  ∧ (0 < max_pool_size lent_and_returned)%nat
  ∧ _shutdown_event (shutdown lent_and_returned) = true
  ∧ _sessions (shutdown lent_and_returned) = ∅
  ∧ ∃ p', get_session 30000000 [] (λ _, Value 9%nat)
            (shutdown lent_and_returned)
          = (p', Some (length (store lent_and_returned)))
      ∧ size (_sessions p') = 1%nat
      ∧ _shutdown_event p' = true.
Proof.
  assert (reachable ∅ lent_and_returned) as Hreach.
  { exists 0, [Acquire [] (Value 7%nat); Release 0%nat false]. reflexivity. }
  assert (0 < 30000000) as Hpos by lia.
  assert (0 < max_pool_size lent_and_returned)%nat as Hmax
    by (vm_compute; lia).
  destruct (shutdown_drains_but_acquire_still_creates ∅ lent_and_returned
              30000000 [] (λ _, Value 9%nat) 9%nat Hreach Hpos Hmax eq_refl)
    as (Hflag & Hempty & _ & _ & Hget).
  repeat (split; [assumption|]). exact Hget.
Defined.

Lemma acquire_release_roundtrip_witness :
  reachable ∅ lent_and_returned
  ∧ 0 < 30000000
  ∧ ["session_0_0"] ≡ₚ elements (_available_sessions lent_and_returned)
  ∧ ∃ r s,
      (get_session 30000000 ["session_0_0"]
         (λ _, Exc (WebDriverException "no browser")) lent_and_returned).2
      = Some r
      ∧ store lent_and_returned !! r = Some s
      ∧ is_healthy s = true ∧ is_busy s = false
      ∧ session_id s ∈ _available_sessions lent_and_returned
      ∧ _sessions lent_and_returned !! session_id s = Some r
      ∧ return_session r false
          (get_session 30000000 ["session_0_0"]
             (λ _, Exc (WebDriverException "no browser")) lent_and_returned).1
        = with_store (<[r := mark_used (clock lent_and_returned) s]>
                        (store lent_and_returned)) lent_and_returned.
Proof.
  assert (reachable ∅ lent_and_returned) as Hreach.
  { exists 0, [Acquire [] (Value 7%nat); Release 0%nat false]. reflexivity. }
  assert (0 < 30000000) as Hpos by lia.
  assert (["session_0_0"] ≡ₚ elements (_available_sessions lent_and_returned))
    as Hperm by (vm_compute; reflexivity).
  split; [exact Hreach|]. split; [exact Hpos|]. split; [exact Hperm|].
  apply (acquire_release_roundtrip ∅ lent_and_returned 30000000 ["session_0_0"]
           (λ _, Exc (WebDriverException "no browser")) Hreach Hpos Hperm).
  exists "session_0_0", 0%nat, returned_session.
  repeat split; vm_compute; reflexivity.
Defined.

End PoolProperties.

(** * Properties of the operation recorder *)

Module RecorderProperties.
Import PerformanceMonitor.

(** C9.  Whatever the recorder holds, after [reset_stats] a snapshot is
    empty: the statistics of all operations are the empty mapping and the
    list of metric events is empty; so are the statistics asked for by
    name and the metrics under any filter. *)
Theorem reset_then_snapshot_is_empty (m : PerformanceMonitor) (now : datetime) :
  snapshot now (reset_stats m) = (AllStats ∅, [])
  ∧ get_operation_stats None (reset_stats m) = AllStats ∅
  ∧ (∀ name_filter time_range,
       get_metrics now name_filter time_range (reset_stats m) = [])
  ∧ (∀ n, get_operation_stats (Some n) (reset_stats m) = AllStats ∅
          ∨ get_operation_stats (Some n) (reset_stats m) = OneStats None).
Proof.
  assert (get_operation_stats None (reset_stats m) = AllStats ∅) as Hstats.
  { unfold get_operation_stats. simpl. by rewrite fmap_empty. }
  split; [|split; [|split]].
  - unfold snapshot. by rewrite Hstats.
  - done.
  - intros name_filter time_range. unfold get_metrics. simpl.
    destruct time_range as [range|]; destruct name_filter as [f|];
      repeat case_match; done.
  - intros n. unfold get_operation_stats. simpl.
    destruct (negb (String.eqb n "")).
    + right. by rewrite lookup_empty.
    + left. by rewrite fmap_empty.
Qed.

Lemma disabled_call (c : recorder_call) (m : PerformanceMonitor) :
  enabled m = false → do_call c m = m.
Proof.
  intros Hoff. destruct c; simpl.
  - unfold record_operation. by rewrite Hoff.
  - unfold add_metric. by rewrite Hoff.
Qed.

(** C10.  A recorder built from a configuration whose
    [performance_monitoring] option is false is left as it was built by
    every sequence of [record_operation] and [add_metric] calls: no
    statistics entry, no metric event, and a snapshot taken afterwards is
    the snapshot taken before. *)
Theorem disabled_recorder_is_unchanged (config : Config)
    (calls : list recorder_call) (now : datetime) :
  config !! "performance_monitoring" = Some (PyBool false) →
  do_calls calls (__init__ config) = __init__ config
  ∧ operation_stats (do_calls calls (__init__ config)) = ∅
  ∧ metrics (do_calls calls (__init__ config)) = []
  ∧ snapshot now (do_calls calls (__init__ config))
    = snapshot now (__init__ config).
Proof.
  intros Hoff.
  assert (enabled (__init__ config) = false) as Hdisabled.
  { unfold __init__, config_get_bool. simpl. by rewrite Hoff. }
  assert (do_calls calls (__init__ config) = __init__ config) as ->.
  { generalize dependent (__init__ config). intros m Hm.
    induction calls as [|c calls IH]; [done|].
    simpl. by rewrite disabled_call. }
  done.
Qed.

Lemma disabled_recorder_is_unchanged_witness :
  monitoring_off !! "performance_monitoring" = Some (PyBool false)
  ∧ do_calls some_calls (__init__ monitoring_off) = __init__ monitoring_off
  ∧ operation_stats (do_calls some_calls (__init__ monitoring_off)) = ∅
  ∧ metrics (do_calls some_calls (__init__ monitoring_off)) = []
  ∧ snapshot 9 (do_calls some_calls (__init__ monitoring_off))
    = snapshot 9 (__init__ monitoring_off).
Proof.
  assert (monitoring_off !! "performance_monitoring" = Some (PyBool false))
    as Hoff by reflexivity.
  split; [exact Hoff|].
  exact (disabled_recorder_is_unchanged monitoring_off some_calls 9 Hoff).
Defined.

End RecorderProperties.

(** * Properties of the retry primitive *)

Module RetryProperties.
Import TimingUtils.

Lemma retry_attempts_after_failures {A : Type} (func : nat → outcome A)
    (exceptions : PyException → bool) (max_retries : nat) (delay : Q) (k : nat) :
  ∀ a n last w,
    (a + n = max_retries + 1)%nat → (k < n)%nat →
    (∀ j, (j < k)%nat →
       ∃ e, func (calls w + j)%nat = Exc e ∧ exceptions e = true) →
    ∃ last',
      retry_attempts func exceptions max_retries delay (seq a n) last w
      = retry_attempts func exceptions max_retries delay
          (seq (a + k) (n - k)) last'
          {| calls := calls w + k; slept := slept w ++ replicate k delay |}.
Proof.
  induction k as [|k IH]; intros a n last w Hlen Hk Hfail.
  - exists last. rewrite Nat.add_0_r, Nat.sub_0_r. simpl.
    rewrite app_nil_r, Nat.add_0_r. by destruct w.
  - destruct n as [|n]; [lia|]. simpl.
    destruct (Hfail 0%nat) as (e & He & Hret); [lia|].
    rewrite Nat.add_0_r in He. rewrite He, Hret.
    destruct (a <? max_retries)%nat eqn:Hlt; [|apply Nat.ltb_ge in Hlt; lia].
    destruct (IH (S a) n (Some e) (sleep delay (call w))) as [last' ->].
    + lia.
    + lia.
    + intros j Hj. destruct (Hfail (S j)) as (e' & He' & Hret'); [lia|].
      exists e'. split; [|done]. simpl. rewrite <- He'. f_equal. lia.
    + exists last'. simpl. f_equal; [f_equal; lia|].
      f_equal; [lia|]. by rewrite <- app_assoc.
Qed.

(** C6, as stated, fails: [retry_on_failure] sleeps the same [delay] before
    every new attempt.  With a delay of one second the sleep after the
    second failed attempt is one second, not two; with a delay of twenty
    seconds the sleep is twenty seconds, not ten. *)
Lemma retry_delay_is_constant :
  slept (retry_on_failure always_times_out 2 1 any_exception fresh_world).1
  = [1%Q; 1%Q]
  ∧ (spec_backoff 1 2 == 2)%Q
  ∧ ¬ (1 == spec_backoff 1 2)%Q
  ∧ slept (retry_on_failure always_times_out 1 20 any_exception fresh_world).1
    = [20%Q]
  ∧ ¬ (20 == spec_backoff 20 1)%Q.
Proof. repeat split; vm_compute; congruence. Qed.

(** C6, amended.  When the first [k] attempts of [retry_on_failure] have
    failed with retriable failures ([k ≤ max_retries], so another attempt
    remains after each), the code has slept exactly [delay] after each of
    them, with neither backoff nor cap, and makes attempt [k + 1].  If
    that attempt returns, its value is returned.  If it fails with a
    failure that is not retriable, the failure propagates at once, with no
    further call and no further sleep.  If it fails with a retriable
    failure and was the last attempt, this last failure propagates. *)
Theorem retry_on_failure_sleeps_delay {A : Type} (func : nat → outcome A)
    (exceptions : PyException → bool) (max_retries : nat) (delay : Q)
    (w : world) (k : nat) :
  (k ≤ max_retries)%nat →
  (∀ j, (j < k)%nat →
     ∃ e, func (calls w + j)%nat = Exc e ∧ exceptions e = true) →
  match func (calls w + k)%nat with
  | Value v =>
      retry_on_failure func max_retries delay exceptions w
      = ({| calls := calls w + k + 1; slept := slept w ++ replicate k delay |},
         Value v)
  | Exc e =>
      if exceptions e then
        k = max_retries →
        retry_on_failure func max_retries delay exceptions w
        = ({| calls := calls w + k + 1;
              slept := slept w ++ replicate k delay |}, Exc e)
      else
        retry_on_failure func max_retries delay exceptions w
        = ({| calls := calls w + k + 1;
              slept := slept w ++ replicate k delay |}, Exc e)
  end.
Proof.
  intros Hk Hfail. unfold retry_on_failure.
  destruct (retry_attempts_after_failures func exceptions max_retries delay k
              0%nat (max_retries + 1)%nat None w) as [last' Hskip];
    [lia|lia|done|].
  assert (∃ rest, (max_retries + 1 - k)%nat = S rest) as [rest Hrest]
    by (exists (max_retries - k)%nat; lia).
  rewrite Hrest in Hskip. simpl in Hskip.
  assert (call {| calls := calls w + k; slept := slept w ++ replicate k delay |}
          = {| calls := calls w + k + 1; slept := slept w ++ replicate k delay |})
    as Hcall by (unfold call; simpl; f_equal; lia).
  destruct (func (calls w + k)%nat) as [v|e] eqn:Hfunc.
  - by rewrite Hskip, Hcall.
  - destruct (exceptions e) eqn:Hret.
    + intros ->. rewrite Hskip.
      rewrite Nat.ltb_irrefl.
      assert (rest = 0%nat) as -> by lia. simpl. by rewrite Hcall.
    + by rewrite Hskip, Hcall.
Qed.

Lemma retry_on_failure_sleeps_delay_witness :
  (2 ≤ 3)%nat
  ∧ (∀ j, (j < 2)%nat →
       ∃ e, third_time_lucky (calls fresh_world + j)%nat = Exc e
            ∧ any_exception e = true)
  ∧ retry_on_failure third_time_lucky 3 (1 # 2) any_exception fresh_world
    = ({| calls := 3; slept := [1 # 2; 1 # 2]%Q |}, Value 42%nat).
Proof.
  assert (2 ≤ 3)%nat as Hk by lia.
  assert (∀ j, (j < 2)%nat →
            ∃ e, third_time_lucky (calls fresh_world + j)%nat = Exc e
                 ∧ any_exception e = true) as Hfail.
  { intros j Hj. exists TimeoutException.
    destruct j as [|[|j]]; [split; reflexivity..|lia]. }
  split; [exact Hk|]. split; [exact Hfail|].
  exact (retry_on_failure_sleeps_delay third_time_lucky any_exception 3
           (1 # 2) fresh_world 2 Hk Hfail).
Defined.

End RetryProperties.

(** * Properties of the fan-out *)

Module FanOutProperties.
Import AsyncBrowser.
Local Open Scope nat_scope.

Section Loop.
Context {S A : Type}.
Implicit Types (ts jobs : list (coro S A)) (st : S * list (coro S A)).

Lemma event_loop_app sch1 sch2 st :
  event_loop (sch1 ++ sch2) st = event_loop sch2 (event_loop sch1 st).
Proof. apply foldl_app. Qed.

Lemma after_finished (o : outcome A) (seen : list S) :
  after (Finished o) seen = Finished o.
Proof. by destruct seen. Qed.

Lemma after_produces (c : coro S A) (seen : list S) (o : outcome A) :
  after c seen = Finished o → produces c o.
Proof.
  revert c. induction seen as [|s seen IH]; intros c.
  - destruct c; simpl; [intros [= ->]; constructor|done].
  - destruct c as [o'|next effect]; simpl; [intros [= ->]; constructor|].
    intros Hafter. econstructor. by apply IH.
Qed.

(** The task at position [i] is the job at position [i], resumed in the
    states the event loop gave it, and in no others. *)
Lemma event_loop_lookup (i : nat) sch st :
  (event_loop sch st).2 !! i
  = (λ c, after c (resumptions i sch st)) <$> st.2 !! i.
Proof.
  revert st. induction sch as [|j sch IH]; intros st.
  - simpl. by destruct (st.2 !! i).
  - change (event_loop (j :: sch) st) with (event_loop sch (resume j st)).
    rewrite IH. simpl. destruct (decide (j = i)) as [->|Hne].
    + unfold resume at 2.
      destruct (st.2 !! i) as [[o|next effect]|] eqn:Hi.
      * rewrite Hi. simpl. by rewrite !after_finished.
      * simpl. rewrite list_lookup_insert_eq by (by eapply lookup_lt_Some).
        done.
      * by rewrite Hi.
    + unfold resume at 2.
      destruct (st.2 !! j) as [[o|next effect]|] eqn:Hj; [done| |done].
      simpl. by rewrite list_lookup_insert_ne.
Qed.

Lemma event_loop_length sch st : length (event_loop sch st).2 = length st.2.
Proof.
  revert st. induction sch as [|j sch IH]; intros st; [done|].
  simpl. rewrite IH. unfold resume.
  destruct (st.2 !! j) as [[o|next effect]|]; [done| |done].
  simpl. by rewrite length_insert.
Qed.

(** The list that [gather] returns has one result per job, in the order
    of the jobs: result [i] is what job [i] finished with. *)
Lemma gather_in_order sch st results :
  gather (event_loop sch st).2 = Some results →
  length results = length st.2
  ∧ ∀ i job, st.2 !! i = Some job →
      ∃ o, results !! i = Some (as_result o)
           ∧ after job (resumptions i sch st) = Finished o.
Proof.
  intros Hgather. apply mapM_Some in Hgather.
  pose proof (Forall2_length _ _ _ Hgather) as Hlen.
  rewrite event_loop_length in Hlen. split; [done|]. intros i job Hjob.
  pose proof (event_loop_lookup i sch st) as Ht. rewrite Hjob in Ht. simpl in Ht.
  destruct (Forall2_lookup_l _ _ _ _ _ Hgather Ht) as (res & Hres & Htr).
  destruct (after job (resumptions i sch st)) as [o|next effect]; [|done].
  exists o. split; [|done].
  rewrite Hres. f_equal. destruct o; simpl in Htr; by simplify_eq.
Qed.

(** A task can always be run to its end, whatever the others are. *)
Lemma finish_task (c : coro S A) :
  ∀ i s ts, ts !! i = Some c →
    ∃ sch s' o, event_loop sch (s, ts) = (s', <[i := Finished o]> ts).
Proof.
  induction c as [o|next IH effect]; intros i s ts Hi.
  - exists [], s, o. simpl. by rewrite list_insert_id.
  - destruct (IH s i (effect s) (<[i := next s]> ts)) as (sch & s' & o & Hrun).
    { apply list_lookup_insert_eq. by eapply lookup_lt_Some. }
    exists (i :: sch), s', o. simpl. unfold resume at 1. simpl.
    rewrite Hi, Hrun. by rewrite list_insert_insert_eq.
Qed.

Lemma finish_prefix (k : nat) :
  ∀ s ts, k ≤ length ts →
    ∃ sch s' ts', event_loop sch (s, ts) = (s', ts')
      ∧ length ts' = length ts
      ∧ ∀ i, i < k → ∃ o, ts' !! i = Some (Finished o).
Proof.
  induction k as [|k IH]; intros s ts Hk.
  - exists [], s, ts. repeat split. lia.
  - destruct (IH s ts) as (sch1 & s1 & ts1 & Hrun1 & Hlen1 & Hdone1); [lia|].
    destruct (lookup_lt_is_Some_2 ts1 k) as [c Hc]; [lia|].
    destruct (finish_task c k s1 ts1 Hc) as (sch2 & s2 & o & Hrun2).
    exists (sch1 ++ sch2), s2, (<[k := Finished o]> ts1).
    rewrite event_loop_app, Hrun1, Hrun2, length_insert.
    repeat split; [done|]. intros i Hi.
    destruct (decide (i = k)) as [->|Hne].
    + exists o. apply list_lookup_insert_eq. lia.
    + rewrite list_lookup_insert_ne by done. apply Hdone1. lia.
Qed.

(** From any state of the event loop the gather can be brought to
    return. *)
Lemma gather_can_return st :
  ∃ sch results, gather (event_loop sch st).2 = Some results.
Proof.
  destruct st as [s ts].
  destruct (finish_prefix (length ts) s ts) as (sch & s' & ts' & Hrun & Hlen & Hdone);
    [done|].
  exists sch. rewrite Hrun. simpl. apply mapM_is_Some.
  apply Forall_lookup. intros i t Ht.
  destruct (Hdone i) as [o Ho]; [apply lookup_lt_Some in Ht; lia|].
  rewrite Ho in Ht. injection Ht as <-. destruct o; simpl; eauto.
Qed.

(** No run of the event loop is infinite. *)
Lemma task_step_sn_cons (c : coro S A) :
  ∀ cs, sn task_step cs → sn task_step (c :: cs).
Proof.
  induction c as [o|next IHnext effect]; intros cs Hcs.
  - induction Hcs as [cs _ IHcs]. constructor. intros ts' Hstep.
    inversion Hstep as [i ts next effect s Hi]; subst.
    destruct i as [|i]; [done|]. simpl. apply IHcs. by econstructor.
  - induction Hcs as [cs Hacc IHcs]. constructor. intros ts' Hstep.
    inversion Hstep as [i ts next0 effect0 s Hi]; subst.
    destruct i as [|i]; simpl in *.
    + injection Hi as <- <-. apply IHnext. by constructor.
    + apply IHcs. by econstructor.
Qed.

Lemma task_step_sn ts : sn task_step ts.
Proof.
  induction ts as [|c cs IH]; [|by apply task_step_sn_cons].
  constructor. intros ts' Hstep. by inversion Hstep.
Qed.

Lemma loop_step_sn st : sn loop_step st.
Proof.
  destruct st as [s ts]. revert s.
  induction (task_step_sn ts) as [ts _ IH]. intros s.
  constructor. intros [s' ts'] Hstep. inversion Hstep; subst.
  apply IH. by econstructor.
Qed.

(** A resumption that changes anything is a turn of the event loop. *)
Lemma resume_loop_step i st :
  resume i st = st ∨ loop_step st (resume i st).
Proof.
  destruct st as [s ts]. unfold resume. simpl.
  destruct (ts !! i) as [[o|next effect]|] eqn:Hi; [by left|right|by left].
  by constructor.
Qed.
End Loop.

(** What a single alert job can finish with: the flag of the alert
    creator, [False] standing for a failure it raised; or the failure of
    the browser factory, which the job lets through. *)
Lemma single_alert_outcome create_browser create_alert config o :
  produces (_create_single_alert create_browser create_alert config) o →
  (∃ b, o = Value (match create_alert b config with
                   | Value ok => ok
                   | Exc _ => false
                   end))
  ∨ (∃ k e, create_browser k = Exc e ∧ o = Exc e).
Proof.
  unfold _create_single_alert. intros Hp.
  inversion Hp as [|next effect m o' H1]; subst. clear Hp.
  destruct (get_browser create_browser m).2 as [b|e] eqn:Hget.
  - left. exists b.
    inversion H1 as [|next1 effect1 m1 o1 H2]; subst.
    inversion H2 as [|next2 effect2 m2 o2 H3]; subst.
    by inversion H3.
  - right. inversion H1; subst. unfold get_browser in Hget.
    destruct (reverse (_browser_pool m)); simpl in Hget; [eauto|done].
Qed.

(** Jobs 1 and 3 return, job 2 raises; the tasks end in the order 1, 2,
    3 of a schedule that interleaves them, and the results are in the
    order of the jobs. *)
Example partial_failure_scenario :
  parallel_operations [1; 0; 1; 2] three_jobs 0
  = (3, Some [inl "ok"; inr (RuntimeError "boom"); inl "ok"]).
Proof. reflexivity. Qed.

(** C7.  For a fan-out of [n] jobs by [parallel_operations], whatever the
    order in which the event loop resumes the tasks: the result list has
    length [n] and its entry [i] is the outcome of job [i], run in the
    states in which the loop resumed it: the value it returned or the
    failure it raised; a failure is thus recorded at the position of its
    job.  No failure stops the other jobs: from every point
    of every run the tasks can all be run to their end, and no run is
    infinite.  The same holds of [create_alerts_batch], whose job returns
    the flag of the alert creator ([False] when the creator raised) and
    lets through the failure of the browser factory only. *)
Theorem fan_out_in_order_without_cancellation {S A : Type}
    (operations : list (unit → coro S A)) (s : S) :
  (∀ schedule s' results,
     parallel_operations schedule operations s = (s', Some results) →
     length results = length operations
     ∧ ∀ i op, operations !! i = Some op →
         ∃ o, results !! i = Some (as_result o)
              ∧ after (op ())
                  (resumptions i schedule (s, (λ op, op ()) <$> operations))
                = Finished o)
  ∧ (∀ schedule, ∃ more s' results,
       parallel_operations (schedule ++ more) operations s
       = (s', Some results))
  ∧ sn loop_step (s, (λ op, op ()) <$> operations)
  ∧ (∀ create_browser create_alert alert_configs m,
       (∀ schedule m' results,
          create_alerts_batch create_browser create_alert schedule
            alert_configs m = (m', Some results) →
          length results = length alert_configs
          ∧ ∀ i config, alert_configs !! i = Some config →
              (∃ b, results !! i
                    = Some (inl (match create_alert b config with
                                 | Value ok => ok
                                 | Exc _ => false
                                 end)))
              ∨ (∃ k e, create_browser k = Exc e
                        ∧ results !! i = Some (inr e)))
       ∧ (∀ schedule, ∃ more m' results,
            create_alerts_batch create_browser create_alert
              (schedule ++ more) alert_configs m = (m', Some results))).
Proof.
  split; [|split; [|split; [apply loop_step_sn|]]].
  - intros schedule s' results [= <- Hgather].
    apply gather_in_order in Hgather as [Hlen Hres]. simpl in Hlen, Hres.
    rewrite length_fmap in Hlen. split; [done|]. intros i op Hop.
    apply Hres. by rewrite list_lookup_fmap, Hop.
  - intros schedule.
    destruct (gather_can_return
                (event_loop schedule (s, (λ op, op ()) <$> operations)))
      as (more & results & Hgather).
    exists more, (event_loop (schedule ++ more)
                    (s, (λ op, op ()) <$> operations)).1, results.
    unfold parallel_operations. by rewrite event_loop_app, Hgather.
  - intros create_browser create_alert alert_configs m. split.
    + intros schedule m' results [= <- Hgather].
      apply gather_in_order in Hgather as [Hlen Hres]. simpl in Hlen, Hres.
      rewrite length_fmap in Hlen. split; [done|]. intros i config Hconfig.
      destruct (Hres i (_create_single_alert create_browser create_alert config))
        as (o & Ho & Hp); [by rewrite list_lookup_fmap, Hconfig|].
      apply after_produces, single_alert_outcome in Hp
        as [[b ->]|(k & e & Hk & ->)].
      * left. by exists b.
      * right. by exists k, e.
    + intros schedule.
      destruct (gather_can_return
                  (event_loop schedule
                     (m, _create_single_alert create_browser create_alert
                           <$> alert_configs)))
        as (more & results & Hgather).
      exists more, (event_loop (schedule ++ more)
                      (m, _create_single_alert create_browser create_alert
                            <$> alert_configs)).1, results.
      unfold create_alerts_batch. by rewrite event_loop_app, Hgather.
Qed.

End FanOutProperties.

(** * Further properties of the session pool *)

Module PoolLaws.
Import SessionManager PoolInvariants PoolProperties.

(** ** Invariants of the reachable states *)

(** X1.  No phantom sessions: in every reachable state an id of the available
    set is a key of the mapping, the object behind it carries that id and
    is not busy. *)
Theorem available_sessions_are_live_and_idle config p sid :
  reachable config p →
  sid ∈ _available_sessions p →
  ∃ r s, _sessions p !! sid = Some r ∧ store p !! r = Some s
    ∧ session_id s = sid ∧ is_busy s = false.
Proof.
  intros Hc%reachable_consistent Ha.
  destruct (available_live _ _ _ Hc _ Ha) as [r Hr].
  destruct (key_is_id _ _ _ Hc _ _ Hr) as (s & Hs & Hid).
  exists r, s. repeat split; try done. by eapply (available_idle _ _ _ Hc).
Qed.

Lemma available_sessions_are_live_and_idle_witness :
  reachable ∅ lent_and_returned
  ∧ "session_0_0" ∈ _available_sessions lent_and_returned
  ∧ ∃ r s, _sessions lent_and_returned !! "session_0_0" = Some r
      ∧ store lent_and_returned !! r = Some s
      ∧ session_id s = "session_0_0" ∧ is_busy s = false.
Proof.
  assert (reachable ∅ lent_and_returned) as Hreach.
  { exists 0, [Acquire [] (Value 7%nat); Release 0%nat false]. reflexivity. }
  assert ("session_0_0" ∈ _available_sessions lent_and_returned) as Ha
    by (vm_compute; reflexivity).
  split; [exact Hreach|]. split; [exact Ha|].
  exact (available_sessions_are_live_and_idle ∅ lent_and_returned
           "session_0_0" Hreach Ha).
Defined.



(** X3.  Exclusivity: in every reachable state, [get_session] never hands out a
    session that is busy, whatever the timeout and the browser factory. *)
Theorem busy_session_is_not_handed_out
    config p timeout order create_browser r s :
  reachable config p →
  order ≡ₚ elements (_available_sessions p) →
  store p !! r = Some s →
  is_busy s = true →
  (get_session timeout order create_browser p).2 ≠ Some r.
Proof.
  intros Hc%reachable_consistent Hperm Hs Hbusy.
  destruct (get_session _ _ _ _) as [p' res] eqn:Hget. simpl. intros ->.
  apply get_session_Some in Hget as (n & _ & Hattempt).
  apply attempt_Some in Hattempt
    as [(sid & s0 & Hin & Hm & Hs0 & _ & _)|(_ & Hlen & _)]; simpl in *.
  - rewrite Hs in Hs0. injection Hs0 as <-.
    assert (sid ∈ _available_sessions p) as Ha.
    { apply elem_of_elements. by rewrite <- Hperm. }
    pose proof (available_idle _ _ _ Hc _ _ _ Ha Hm Hs). congruence.
  - apply lookup_lt_Some in Hs. lia.
Qed.

Lemma busy_session_is_not_handed_out_witness :
  reachable ∅ leased_for_three_hours
  ∧ [] ≡ₚ elements (_available_sessions leased_for_three_hours)
  ∧ store leased_for_three_hours !! 0%nat = Some leased_session
  ∧ is_busy leased_session = true
  ∧ (get_session 30000000 [] (λ _, Value 8%nat) leased_for_three_hours).2
    ≠ Some 0%nat.
Proof.
  assert (reachable ∅ leased_for_three_hours) as Hreach.
  { exists 0, [Acquire [] (Value 7%nat); Elapse 10800000000%N]. reflexivity. }
  assert ([] ≡ₚ elements (_available_sessions leased_for_three_hours))
    as Hperm by (vm_compute; reflexivity).
  assert (store leased_for_three_hours !! 0%nat = Some leased_session)
    as Hs by (vm_compute; reflexivity).
  assert (is_busy leased_session = true) as Hbusy by reflexivity.
  repeat (split; [assumption|]).
  exact (busy_session_is_not_handed_out ∅ leased_for_three_hours 30000000 []
           (λ _, Value 8%nat) 0%nat leased_session Hreach Hperm Hs Hbusy).
Defined.

(** ** Release *)

(** X4.  Releasing a session of the pool with an error spends one unit of its
    budget of five.  While the budget is not used up the session stays in
    the mapping and becomes available, idle and with one more error; with
    the fifth error it is removed from the mapping and the available set
    and its browser is quit. *)
Theorem release_with_error_spends_budget config p r s :
  reachable config p →
  store p !! r = Some s →
  _sessions p !! session_id s = Some r →
  if (S (error_count s) <? 5)%nat
  then (_sessions (return_session r true p) = _sessions p
        ∧ session_id s ∈ _available_sessions (return_session r true p)
        ∧ store (return_session r true p) !! r
          = Some (mark_error (set_busy false s)))
  else (_sessions (return_session r true p) !! session_id s = None
        ∧ (session_id s ∉ _available_sessions (return_session r true p))
        ∧ browser s ∈ quit_browsers (return_session r true p)).
Proof.
  intros Hc%reachable_consistent Hs Hm.
  pose proof (budget_default _ _ _ Hc _ _ Hs) as Hmax.
  unfold return_session. rewrite Hs, decide_True by eauto.
  assert (is_healthy (released true s) = (S (error_count s) <? 5)%nat) as ->.
  { unfold is_healthy. simpl. by rewrite Hmax. }
  destruct (S (error_count s) <? 5)%nat.
  - simpl. split; [done|]. split; [set_solver|].
    by rewrite list_lookup_alter_eq, Hs.
  - rewrite sessions_remove, available_remove. simpl. rewrite Hm.
    split; [apply lookup_delete_eq|]. split; [set_solver|].
    apply quit_remove. right. exists r, (released true s). simpl.
    by rewrite list_lookup_alter_eq, Hs.
Qed.

Lemma release_with_error_spends_budget_witness :
  reachable ∅ lent_and_returned
  ∧ store lent_and_returned !! 0%nat = Some returned_session
  ∧ _sessions lent_and_returned !! session_id returned_session = Some 0%nat
  ∧ store (return_session 0%nat true lent_and_returned) !! 0%nat
    = Some (mark_error (set_busy false returned_session)).
Proof.
  assert (reachable ∅ lent_and_returned) as Hreach.
  { exists 0, [Acquire [] (Value 7%nat); Release 0%nat false]. reflexivity. }
  assert (store lent_and_returned !! 0%nat = Some returned_session)
    as Hs by (vm_compute; reflexivity).
  assert (_sessions lent_and_returned !! session_id returned_session
          = Some 0%nat) as Hm by (vm_compute; reflexivity).
  repeat (split; [assumption|]).
  exact (proj2 (proj2 (release_with_error_spends_budget ∅ lent_and_returned
                         0%nat returned_session Hreach Hs Hm))).
Defined.

(** X5.  A session that the janitor retired while it was leased is not
    resurrected: releasing it afterwards, with or without error, leaves
    the pool as the janitor left it. *)
Theorem release_after_retirement_changes_nothing
    config p sid r s had_error :
  reachable config p →
  _sessions p !! sid = Some r →
  store p !! r = Some s →
  retire_due p r = true →
  return_session r had_error (_cleanup_expired_sessions p)
  = _cleanup_expired_sessions p.
Proof.
  intros Hc%reachable_consistent Hm Hs Hdue.
  destruct (key_is_id _ _ _ Hc _ _ Hm) as (s' & Hs' & Hid).
  rewrite Hs in Hs'. injection Hs' as <-.
  assert (_sessions (_cleanup_expired_sessions p) !! sid = None) as Hgone.
  { unfold _cleanup_expired_sessions. rewrite sessions_remove_all.
    apply decide_True, elem_of_expired. eauto. }
  unfold return_session.
  unfold _cleanup_expired_sessions at 1. rewrite store_remove_all, Hs, Hid.
  rewrite Hgone. rewrite decide_False; [done|]. by intros [? ?].
Qed.

Lemma release_after_retirement_changes_nothing_witness :
  reachable ∅ leased_for_three_hours
  ∧ _sessions leased_for_three_hours !! "session_0_0" = Some 0%nat
  ∧ store leased_for_three_hours !! 0%nat = Some leased_session
  ∧ retire_due leased_for_three_hours 0%nat = true
  ∧ return_session 0%nat true
      (_cleanup_expired_sessions leased_for_three_hours)
    = _cleanup_expired_sessions leased_for_three_hours.
Proof.
  assert (reachable ∅ leased_for_three_hours) as Hreach.
  { exists 0, [Acquire [] (Value 7%nat); Elapse 10800000000%N]. reflexivity. }
  assert (_sessions leased_for_three_hours !! "session_0_0" = Some 0%nat)
    as Hm by (vm_compute; reflexivity).
  assert (store leased_for_three_hours !! 0%nat = Some leased_session)
    as Hs by (vm_compute; reflexivity).
  assert (retire_due leased_for_three_hours 0%nat = true)
    as Hdue by (vm_compute; reflexivity).
  repeat (split; [assumption|]).
  exact (release_after_retirement_changes_nothing ∅ leased_for_three_hours
           "session_0_0" 0%nat leased_session true Hreach Hm Hs Hdue).
Defined.

(** ** Janitor and shutdown, repeated *)

Lemma clock_remove_all ids p : clock (remove_all ids p) = clock p.
Proof.
  revert p. induction ids as [|sid ids IH]; intros p; [done|].
  simpl. rewrite IH. unfold _remove_session.
  destruct (_sessions p !! sid) as [r|]; [|done]. by destruct (store p !! r).
Qed.

Lemma retire_due_remove_all ids p r :
  retire_due (remove_all ids p) r = retire_due p r.
Proof.
  unfold retire_due. rewrite store_remove_all, clock_remove_all.
  destruct (same_config_remove_all ids p) as (_ & _ & -> & -> & _). done.
Qed.

(** X6.  A second clean-up pass at the same time finds nothing to retire. *)
Theorem cleanup_twice_is_cleanup_once p :
  _cleanup_expired_sessions (_cleanup_expired_sessions p)
  = _cleanup_expired_sessions p.
Proof.
  unfold _cleanup_expired_sessions at 1.
  destruct (expired_sessions (_cleanup_expired_sessions p))
    as [|sid ids] eqn:Hexp; [done|].
  assert (sid ∈ expired_sessions (_cleanup_expired_sessions p)) as Hin
    by (rewrite Hexp; left).
  apply elem_of_expired in Hin as (r & Hm & Hdue).
  unfold _cleanup_expired_sessions in Hm, Hdue.
  rewrite retire_due_remove_all in Hdue. rewrite sessions_remove_all in Hm.
  case_decide as Hnin; [done|]. exfalso. apply Hnin.
  apply elem_of_expired. eauto.
Qed.

(** X7.  Shutting down twice is shutting down once. *)
Theorem shutdown_twice_is_shutdown_once p :
  shutdown (shutdown p) = shutdown p.
Proof.
  unfold shutdown at 1. simpl.
  rewrite sessions_shutdown, map_to_list_empty. simpl.
  assert (_shutdown_event (shutdown p) = true) as Hflag.
  { unfold shutdown. by rewrite shutdown_event_remove_all. }
  destruct (shutdown p). simpl in Hflag. by subst.
Qed.

(** ** How long an acquisition waits *)

Lemma clock_attempt order create_browser p :
  clock (get_session_attempt order create_browser p).1 = clock p.
Proof.
  unfold get_session_attempt.
  destruct (find_available p order) as [[sid r]|]; [done|].
  destruct (size (_sessions p) <? max_pool_size p)%nat; [|done].
  by destruct create_browser.
Qed.

Lemma loop_elapsed fuel start timeout order create_browser k p p' res :
  get_session_loop fuel start timeout order create_browser k p
  = Some (p', res) →
  clock p' = clock p ∨ clock p' - start < timeout + poll_interval.
Proof.
  revert k p. induction fuel as [|fuel IH]; intros k p; simpl.
  - destruct (clock p - start <? timeout); [done|]. intros [= <- <-]. by left.
  - destruct (clock p - start <? timeout) eqn:Hlt;
      [|intros [= <- <-]; by left].
    apply Z.ltb_lt in Hlt.
    pose proof (clock_attempt order (create_browser k) p) as Hclock.
    destruct (get_session_attempt order (create_browser k) p)
      as [p1 [r|]] eqn:Hattempt; simpl in Hclock.
    + intros [= <- <-]. by left.
    + intros [Heq|Hlt']%IH; [|by right]. right.
      rewrite Heq. simpl. unfold poll_interval in *. lia.
Qed.

(** X8.  An acquisition with a non-negative timeout comes back in time: with a
    session before the timeout has elapsed, or with [None] once it has
    elapsed and less than one polling interval later. *)
Theorem get_session_waits_at_most_timeout_and_a_poll
    timeout order create_browser p :
  0 ≤ timeout →
  0 ≤ clock (get_session timeout order create_browser p).1 - clock p
      < timeout + poll_interval
  ∧ match (get_session timeout order create_browser p).2 with
    | Some _ =>
        clock (get_session timeout order create_browser p).1 - clock p
        < timeout
    | None =>
        timeout
        ≤ clock (get_session timeout order create_browser p).1 - clock p
    end.
Proof.
  intros Hpos.
  pose proof (get_session_loop_total timeout order create_browser p) as Hloop.
  destruct (get_session timeout order create_browser p) as [p' res] eqn:Hget.
  simpl. pose proof (loop_elapsed _ _ _ _ _ _ _ _ _ Hloop) as Hup.
  destruct res as [r|].
  - apply get_session_Some in Hget as (n & Hn & Hattempt).
    pose proof (clock_attempt order (create_browser n)
                  (sleep (Z.of_nat n * poll_interval) p)) as Hclock.
    rewrite Hattempt in Hclock. simpl in Hclock.
    unfold poll_interval in *. lia.
  - apply get_session_None in Hget as (n & -> & Hle). simpl in *.
    unfold poll_interval in *. lia.
Qed.

Lemma get_session_waits_at_most_timeout_and_a_poll_witness :
  0 ≤ 250000
  ∧ 0 ≤ clock (get_session 250000 [] (λ _, Value 8%nat) exhausted_pool).1
        - clock exhausted_pool
      < 250000 + poll_interval.
Proof.
  assert (0 ≤ 250000) as Hpos by lia.
  split; [exact Hpos|].
  exact (proj1 (get_session_waits_at_most_timeout_and_a_poll 250000 []
                  (λ _, Value 8%nat) exhausted_pool Hpos)).
Defined.

(** ** Refill *)

Lemma add_session_grows b p :
  pool_consistent p →
  size (_sessions (add_session (Value b) p)) = S (size (_sessions p))
  ∧ size (_available_sessions (add_session (Value b) p))
    = S (size (_available_sessions p))
  ∧ _sessions p ⊆ _sessions (add_session (Value b) p).
Proof.
  intros Hc. pose proof (fresh_id _ _ _ (clock p) Hc) as Hfresh.
  unfold add_session, session_id_of. simpl.
  rewrite list_lookup_middle by done. simpl.
  split; [by apply map_size_insert_None|]. split; [|by apply insert_subseteq].
  rewrite size_union, size_singleton; [done|].
  apply disjoint_singleton_l. intros Ha.
  destruct (available_live _ _ _ Hc _ Ha) as [r Hr]. congruence.
Qed.

Lemma add_sessions_grow (create_browser : nat → outcome WebDriver)
    (l : list nat) p :
  (∀ k, ∃ b, create_browser k = Value b) →
  pool_consistent p →
  size (_sessions (foldl (λ q k, add_session (create_browser k) q) p l))
  = (size (_sessions p) + length l)%nat
  ∧ size (_available_sessions
            (foldl (λ q k, add_session (create_browser k) q) p l))
    = (size (_available_sessions p) + length l)%nat
  ∧ _sessions p ⊆ _sessions (foldl (λ q k, add_session (create_browser k) q) p l).
Proof.
  intros Hcreate. revert p. induction l as [|k l IH]; intros p Hc; simpl.
  - rewrite !Nat.add_0_r. done.
  - destruct (Hcreate k) as [b Hb].
    destruct (IH (add_session (create_browser k) p)) as (H1 & H2 & H3);
      [by apply consistent_add_session|].
    rewrite Hb in *. destruct (add_session_grows b p Hc) as (G1 & G2 & G3).
    rewrite H1, H2, G1, G2. repeat split; [lia..|]. by etrans.
Qed.

(** X9.  When the browser factory succeeds, a refill by the janitor brings a
    reachable pool that is below its minimum size exactly to it, leaves a
    pool at or above it alone, keeps every session there was and makes
    every new session available. *)
Theorem maintain_fills_to_minimum config p create_browser :
  reachable config p →
  (∀ k, ∃ b, create_browser k = Value b) →
  size (_sessions (_maintain_pool_size create_browser p))
  = (size (_sessions p) `max` min_pool_size p)%nat
  ∧ size (_available_sessions (_maintain_pool_size create_browser p))
    = (size (_available_sessions p)
       + (min_pool_size p - size (_sessions p)))%nat
  ∧ _sessions p ⊆ _sessions (_maintain_pool_size create_browser p).
Proof.
  intros Hc%reachable_consistent Hcreate. unfold _maintain_pool_size.
  destruct (size (_sessions p) <? min_pool_size p)%nat eqn:Hlt.
  - apply Nat.ltb_lt in Hlt.
    destruct (add_sessions_grow create_browser
                (seq 0 (min_pool_size p - size (_sessions p))) p Hcreate Hc)
      as (H1 & H2 & H3).
    rewrite length_seq in H1, H2. rewrite H1, H2. split; [lia|]. by split.
  - apply Nat.ltb_ge in Hlt. split; [lia|]. split; [lia|done].
Qed.

Lemma maintain_fills_to_minimum_witness :
  reachable ∅ lent_and_returned
  ∧ (∀ k, ∃ b, (λ k : nat, Value (10 + k)%nat) k = Value b)
  ∧ size (_sessions
            (_maintain_pool_size (λ k, Value (10 + k)%nat) lent_and_returned))
    = (size (_sessions lent_and_returned)
       `max` min_pool_size lent_and_returned)%nat.
Proof.
  assert (reachable ∅ lent_and_returned) as Hreach.
  { exists 0, [Acquire [] (Value 7%nat); Release 0%nat false]. reflexivity. }
  assert (∀ k, ∃ b, (λ k : nat, Value (10 + k)%nat) k = Value b) as Hcreate.
  { intros k. eexists. reflexivity. }
  split; [exact Hreach|]. split; [exact Hcreate|].
  exact (proj1 (maintain_fills_to_minimum ∅ lent_and_returned
                  (λ k, Value (10 + k)%nat) Hreach Hcreate)).
Defined.

(** ** Session objects over time *)

Lemma later_session_refl s : later_session s s.
Proof. by repeat split. Qed.

Lemma later_session_trans s1 s2 s3 :
  later_session s1 s2 → later_session s2 s3 → later_session s1 s3.
Proof.
  intros (?&?&?&?&?&?&?) (?&?&?&?&?&?&?).
  repeat split; try congruence; try lia. auto.
Qed.

Lemma later_lend now s : later_session s (mark_used now (set_busy true s)).
Proof. repeat split; simpl; auto. Qed.

Lemma later_released had_error s : later_session s (released had_error s).
Proof. destruct had_error; repeat split; simpl; auto. Qed.

Lemma later_authenticated u s : later_session s (set_authenticated u s).
Proof. repeat split; simpl; auto. Qed.

Lemma store_ages_refl st : store_ages st st.
Proof. intros r s Hs. exists s. split; [done|apply later_session_refl]. Qed.

Lemma store_ages_trans st1 st2 st3 :
  store_ages st1 st2 → store_ages st2 st3 → store_ages st1 st3.
Proof.
  intros H12 H23 r s Hs. destruct (H12 _ _ Hs) as (s2 & Hs2 & Hl2).
  destruct (H23 _ _ Hs2) as (s3 & Hs3 & Hl3).
  exists s3. split; [done|]. by eapply later_session_trans.
Qed.

Lemma store_ages_alter f r st :
  (∀ s, later_session s (f s)) → store_ages st (alter f r st).
Proof.
  intros Hf r0 s Hs. destruct (decide (r = r0)) as [->|Hne].
  - exists (f s). by rewrite list_lookup_alter_eq, Hs.
  - exists s. rewrite list_lookup_alter_ne by done.
    split; [done|apply later_session_refl].
Qed.

Lemma store_ages_app st l : store_ages st (st ++ l).
Proof.
  intros r s Hs. exists s. rewrite lookup_app_l_Some with (x := s) by done.
  split; [done|apply later_session_refl].
Qed.

Lemma store_ages_add_sessions (create_browser : nat → outcome WebDriver)
    (l : list nat) p :
  store_ages (store p)
    (store (foldl (λ q k, add_session (create_browser k) q) p l)).
Proof.
  revert p. induction l as [|k l IH]; intros p; [apply store_ages_refl|].
  simpl. eapply store_ages_trans; [|apply IH].
  unfold add_session. destruct (create_browser k); [|apply store_ages_refl].
  apply store_ages_app.
Qed.

Lemma store_ages_step a p : store_ages (store p) (store (step a p)).
Proof.
  destruct a; simpl.
  - unfold get_session_attempt.
    destruct (find_available p order) as [[sid r]|].
    + apply store_ages_alter, later_lend.
    + destruct (size (_sessions p) <? max_pool_size p)%nat;
        [|apply store_ages_refl].
      destruct create_browser as [b|e]; [|apply store_ages_refl]. simpl.
      eapply store_ages_trans; [apply store_ages_app|].
      apply store_ages_alter, later_lend.
  - unfold return_session.
    destruct (store p !! session) as [s|]; [|apply store_ages_refl].
    case_decide; [|apply store_ages_refl].
    destruct (is_healthy _); [|rewrite store_remove];
      apply store_ages_alter, later_released.
  - unfold _cleanup_expired_sessions. rewrite store_remove_all.
    apply store_ages_refl.
  - unfold _maintain_pool_size.
    destruct (size (_sessions p) <? min_pool_size p)%nat;
      [|apply store_ages_refl].
    apply store_ages_add_sessions.
  - apply store_ages_alter, later_authenticated.
  - apply store_ages_refl.
  - unfold shutdown. rewrite store_remove_all. apply store_ages_refl.
Qed.

(** X10.  Whatever happens to the pool, a session object stays in the store
    with its id, its browser, its creation time and its error budget; its
    usage count and its error count never decrease, and once it is
    authenticated it stays authenticated. *)
Theorem session_objects_only_age acts p r s :
  store p !! r = Some s →
  ∃ s', store (run acts p) !! r = Some s'
    ∧ session_id s' = session_id s ∧ browser s' = browser s
    ∧ created_at s' = created_at s ∧ max_errors s' = max_errors s
    ∧ (usage_count s ≤ usage_count s')%nat
    ∧ (error_count s ≤ error_count s')%nat
    ∧ (is_authenticated s = true → is_authenticated s' = true).
Proof.
  revert p r s. induction acts as [|a acts IH]; intros p r s Hs.
  - exists s. by repeat split.
  - destruct (store_ages_step a p _ _ Hs) as (s1 & Hs1 & Hl1).
    destruct (IH (step a p) r s1 Hs1) as (s2 & Hs2 & Hl2).
    exists s2. split; [done|]. by apply (later_session_trans s s1 s2).
Qed.

Lemma session_objects_only_age_witness :
  store lent_and_returned !! 0%nat = Some returned_session
  ∧ ∃ s', store (run [Acquire ["session_0_0"] (Value 8%nat);
                      Authenticate 0%nat "trader"; Release 0%nat true;
                      Shutdown] lent_and_returned) !! 0%nat = Some s'
      ∧ session_id s' = session_id returned_session
      ∧ browser s' = browser returned_session
      ∧ created_at s' = created_at returned_session
      ∧ max_errors s' = max_errors returned_session
      ∧ (usage_count returned_session ≤ usage_count s')%nat
      ∧ (error_count returned_session ≤ error_count s')%nat
      ∧ (is_authenticated returned_session = true
         → is_authenticated s' = true).
Proof.
  assert (store lent_and_returned !! 0%nat = Some returned_session)
    as Hs by (vm_compute; reflexivity).
  split; [exact Hs|].
  exact (session_objects_only_age _ lent_and_returned 0%nat returned_session Hs).
Defined.

(** ** Health of the sessions of the pool *)

Lemma healthy_alter m st f r :
  (∀ s, is_healthy (f s) = is_healthy s) →
  mapping_healthy m st → mapping_healthy m (alter f r st).
Proof.
  intros Hf Hh sid r0 s' Hm. destruct (decide (r = r0)) as [->|Hne].
  - rewrite list_lookup_alter_eq. destruct (st !! r0) as [s|] eqn:Hs; [|done].
    intros [= <-]. rewrite Hf. eauto.
  - rewrite list_lookup_alter_ne by done. eauto.
Qed.

Lemma healthy_create m st sid s :
  is_healthy s = true →
  mapping_healthy m st →
  mapping_healthy (<[sid := length st]> m) (st ++ [s]).
Proof.
  intros Hs Hh sid0 r0 s0 Hm [[Hlt Hs0]|[-> <-]]%lookup_snoc_Some; [|done].
  apply lookup_insert_Some in Hm as [[_ <-]|[_ Hm]]; [lia|eauto].
Qed.

Lemma healthy_remove_all ids p :
  mapping_healthy (_sessions p) (store p) →
  mapping_healthy (_sessions (remove_all ids p)) (store (remove_all ids p)).
Proof.
  intros Hh sid r s. rewrite sessions_remove_all, store_remove_all.
  case_decide; [done|]. eauto.
Qed.

Lemma budget_alter st f r :
  (∀ s, st !! r = Some s → (error_count (f s) ≤ max_errors (f s))%nat) →
  within_budget st → within_budget (alter f r st).
Proof.
  intros Hf Hb r0 s'. destruct (decide (r = r0)) as [->|Hne].
  - rewrite list_lookup_alter_eq. destruct (st !! r0) as [s|] eqn:Hs; [|done].
    intros [= <-]. by apply Hf.
  - rewrite list_lookup_alter_ne by done. eauto.
Qed.

Lemma budget_snoc st s :
  (error_count s ≤ max_errors s)%nat → within_budget st →
  within_budget (st ++ [s]).
Proof. intros Hs Hb r s0 [[_ Hs0]|[_ <-]]%lookup_snoc_Some; eauto. Qed.

Lemma healthy_add_session create_browser p :
  mapping_healthy (_sessions p) (store p) ∧ within_budget (store p) →
  mapping_healthy (_sessions (add_session create_browser p))
    (store (add_session create_browser p))
  ∧ within_budget (store (add_session create_browser p)).
Proof.
  intros [Hh Hb]. unfold add_session. destruct create_browser as [b|e]; [|done].
  unfold session_id_of. simpl. rewrite list_lookup_middle by done. simpl.
  split; [by apply healthy_create|]. apply budget_snoc; [simpl; lia|done].
Qed.

Lemma healthy_step a p :
  pool_consistent p →
  mapping_healthy (_sessions p) (store p) ∧ within_budget (store p) →
  mapping_healthy (_sessions (step a p)) (store (step a p))
  ∧ within_budget (store (step a p)).
Proof.
  intros Hc [Hh Hb]. destruct a; simpl.
  - unfold get_session_attempt.
    destruct (find_available p order) as [[sid r]|].
    + simpl. split; [by apply healthy_alter|].
      apply budget_alter; [|done]. intros s Hs. simpl. eauto.
    + destruct (size (_sessions p) <? max_pool_size p)%nat; [|done].
      destruct create_browser as [b|e]; [|done].
      unfold session_id_of. simpl. rewrite list_lookup_middle by done. simpl.
      split.
      * apply healthy_alter; [done|]. by apply healthy_create.
      * apply budget_alter.
        { intros s [[_ Hs]|[_ <-]]%lookup_snoc_Some; simpl; [eauto|lia]. }
        apply budget_snoc; [simpl; lia|done].
  - unfold return_session.
    destruct (store p !! session) as [s|] eqn:Hs; [|done].
    case_decide as Hin; [|done]. destruct Hin as [r Hr].
    pose proof (consistent_ref_of_id _ _ _ _ _ _ _ Hc Hr Hs eq_refl) as ->.
    pose proof (Hh _ _ _ Hr Hs) as Hhealthy.
    assert (within_budget (alter (released had_error) r (store p))) as Hb'.
    { apply budget_alter; [|done]. intros s0 Hs0.
      rewrite Hs in Hs0. injection Hs0 as <-.
      unfold is_healthy in Hhealthy. apply Nat.ltb_lt in Hhealthy.
      destruct had_error; simpl; lia. }
    destruct (is_healthy (released had_error s)) eqn:Hafter.
    + simpl. split; [|done]. intros sid0 r0 s0 Hm0.
      destruct (decide (r = r0)) as [<-|Hne].
      * rewrite list_lookup_alter_eq, Hs. by intros [= <-].
      * rewrite list_lookup_alter_ne by done. eauto.
    + rewrite store_remove. simpl. split; [|done].
      rewrite sessions_remove. simpl. intros sid0 r0 s0 [Hne Hm0]%lookup_delete_Some.
      destruct (decide (r = r0)) as [<-|Hner].
      * destruct (key_is_id _ _ _ Hc _ _ Hm0) as (s1 & Hs1 & Hid1).
        rewrite Hs in Hs1. injection Hs1 as <-. done.
      * rewrite list_lookup_alter_ne by done. eauto.
  - split; [by apply healthy_remove_all|].
    unfold _cleanup_expired_sessions. by rewrite store_remove_all.
  - unfold _maintain_pool_size.
    destruct (size (_sessions p) <? min_pool_size p)%nat; [|done].
    generalize (seq 0 (min_pool_size p - size (_sessions p))). intros l.
    clear Hc. revert p Hh Hb. induction l as [|k l IH]; intros p Hh Hb; [done|].
    simpl. destruct (healthy_add_session (create_browser k) p) as [Hh' Hb'];
      [done|]. by apply IH.
  - split; [by apply healthy_alter|].
    apply budget_alter; [|done]. intros s Hs. simpl. eauto.
  - done.
  - split; [by apply (healthy_remove_all _ (with_shutdown true p))|].
    unfold shutdown. by rewrite store_remove_all.
Qed.

Lemma healthy_run acts p :
  pool_consistent p →
  mapping_healthy (_sessions p) (store p) ∧ within_budget (store p) →
  mapping_healthy (_sessions (run acts p)) (store (run acts p))
  ∧ within_budget (store (run acts p)).
Proof.
  revert p. induction acts as [|a acts IH]; intros p Hc Hinv; [done|].
  simpl. apply IH; [by apply consistent_step|by apply healthy_step].
Qed.

(** X11.  In every reachable state each session of the mapping is healthy, with
    fewer than five errors, and no session object, in the pool or retired,
    has more than five: the janitor never finds an unhealthy session and
    [get_session] never skips one. *)
Theorem pool_sessions_are_healthy config p :
  reachable config p →
  (∀ sid r s, _sessions p !! sid = Some r → store p !! r = Some s →
     is_healthy s = true ∧ (error_count s < 5)%nat)
  ∧ (∀ r s, store p !! r = Some s → (error_count s ≤ 5)%nat).
Proof.
  intros Hreach. pose proof (reachable_consistent _ _ Hreach) as Hc.
  assert (mapping_healthy (_sessions p) (store p) ∧ within_budget (store p))
    as [Hh Hb].
  { destruct Hreach as (now & acts & ->).
    apply healthy_run; [apply consistent_init|]. by split. }
  split.
  - intros sid r s Hm Hs. pose proof (Hh _ _ _ Hm Hs) as Hhealthy.
    split; [done|]. unfold is_healthy in Hhealthy.
    rewrite (budget_default _ _ _ Hc _ _ Hs) in Hhealthy.
    by apply Nat.ltb_lt.
  - intros r s Hs. rewrite <- (budget_default _ _ _ Hc _ _ Hs). eauto.
Qed.

Lemma pool_sessions_are_healthy_witness :
  reachable budget_config two_errors
  ∧ (∀ sid r s, _sessions two_errors !! sid = Some r →
       store two_errors !! r = Some s →
       is_healthy s = true ∧ (error_count s < 5)%nat)
  ∧ (∀ r s, store two_errors !! r = Some s → (error_count s ≤ 5)%nat).
Proof.
  assert (reachable budget_config two_errors) as Hreach.
  { exists 0, [Acquire [] (Value 7%nat); Release 0%nat true;
               Acquire ["session_0_0"] (Exc (WebDriverException "no browser"));
               Release 0%nat true].
    reflexivity. }
  split; [exact Hreach|].
  exact (pool_sessions_are_healthy budget_config two_errors Hreach).
Defined.

(** ** Time stamps *)










(** ** Pool statistics *)

Lemma filter_values_length (p : SessionPool) (f : BrowserSession → bool)
    (l : list (string * ref)) :
  (length (List.filter f (omap (λ kv, store p !! kv.2) l)) ≤ length l)%nat.
Proof.
  induction l as [|kv l IH]; csimpl; [done|].
  destruct (store p !! kv.2) as [s|]; csimpl; [|lia].
  destruct (f s); csimpl; lia.
Qed.

Lemma busy_values_length (p : SessionPool) (l : list (string * ref)) :
  length (List.filter is_busy (omap (λ kv, store p !! kv.2) l))
  = length (List.filter (busy_entry p) l).
Proof.
  induction l as [|kv l IH]; csimpl; [done|]. unfold busy_entry at 1.
  destruct (store p !! kv.2) as [s|]; csimpl; [|done].
  destruct (is_busy s); csimpl; by rewrite IH.
Qed.

(** X13.  The statistics of a reachable pool add up: the sessions counted as
    available and those counted as busy are different sessions of the
    mapping, the authenticated ones are sessions of the mapping, and when
    the configured minimum is at most the maximum the total is at most the
    maximum reported. *)
Theorem pool_stats_add_up config p :
  reachable config p →
  (available_sessions (get_pool_stats p) + busy_sessions (get_pool_stats p)
   ≤ total_sessions (get_pool_stats p))%nat
  ∧ (authenticated_sessions (get_pool_stats p)
     ≤ total_sessions (get_pool_stats p))%nat
  ∧ ((stats_min_pool_size (get_pool_stats p)
      ≤ stats_max_pool_size (get_pool_stats p))%nat →
     (total_sessions (get_pool_stats p)
      ≤ stats_max_pool_size (get_pool_stats p))%nat).
Proof.
  intros Hreach. pose proof (reachable_consistent _ _ Hreach) as Hc.
  unfold get_pool_stats, sessions_values. simpl.
  rewrite <- (length_map_to_list (_sessions p)). split; [|split].
  - rewrite busy_values_length.
    rewrite <- (List.filter_length (busy_entry p) (map_to_list (_sessions p))).
    rewrite (Nat.add_comm (length (List.filter (busy_entry p) _))).
    apply Nat.add_le_mono_r.
    change (size (_available_sessions p))
      with (length (elements (_available_sessions p))).
    rewrite <- (length_fmap fst (List.filter _ _)).
    apply submseteq_length, NoDup_submseteq; [apply NoDup_elements|].
    intros sid Ha%elem_of_elements.
    destruct (available_live _ _ _ Hc _ Ha) as [r Hr].
    destruct (key_is_id _ _ _ Hc _ _ Hr) as (s & Hs & _).
    apply list_elem_of_fmap. exists (sid, r). split; [done|].
    apply list_elem_of_In, List.filter_In. split.
    + by apply list_elem_of_In, elem_of_map_to_list.
    + unfold busy_entry. simpl. rewrite Hs.
      by rewrite (available_idle _ _ _ Hc _ _ _ Ha Hr Hs).
  - apply filter_values_length.
  - rewrite length_map_to_list. intros Hmin.
    destruct Hreach as (now & acts & ->).
    destruct (same_config_run acts (__init__ config now)) as (Hmax & Hmin' & _).
    rewrite Hmax. apply size_run.
    + by rewrite <- Hmax, <- Hmin'.
    + simpl. rewrite map_size_empty. lia.
Qed.

Lemma pool_stats_add_up_witness :
  reachable ∅ refilled_pool
  ∧ (available_sessions (get_pool_stats refilled_pool)
     + busy_sessions (get_pool_stats refilled_pool)
     ≤ total_sessions (get_pool_stats refilled_pool))%nat.
Proof.
  assert (reachable ∅ refilled_pool) as Hreach.
  { exists 0, [Maintain (λ k, Value (10 + k)%nat)]. reflexivity. }
  split; [exact Hreach|].
  exact (proj1 (pool_stats_add_up ∅ refilled_pool Hreach)).
Defined.

(** ** The scoped lease *)




End PoolLaws.

(** * Further properties of the operation recorder *)

Module RecorderLaws.
Import PerformanceMonitor.
Local Open Scope nat_scope.

(** ** The bounded log of metric events *)

Lemma deque_append_length {A : Type} (maxlen : nat) (x : A) (d : list A) :
  length (deque_append maxlen x d) = S (length d) `min` maxlen.
Proof.
  unfold deque_append. rewrite length_drop, length_app.
  change (length [x]) with 1. lia.
Qed.

Lemma deque_append_newest {A : Type} (maxlen : nat) (x : A) (ys : list A) :
  deque_append maxlen x (drop (length ys - maxlen) ys)
  = drop (length (ys ++ [x]) - maxlen) (ys ++ [x]).
Proof.
  unfold deque_append. rewrite !length_app, length_drop. simpl.
  destruct (decide (length ys ≤ maxlen)) as [Hle|Hgt].
  - replace (length ys - maxlen) with 0 by lia. rewrite Nat.sub_0_r. done.
  - replace (length ys - (length ys - maxlen) + 1 - maxlen) with 1 by lia.
    replace (length ys + 1 - maxlen) with ((length ys - maxlen) + 1) by lia.
    rewrite <- drop_drop. f_equal. rewrite drop_app_le by lia. done.
Qed.

Lemma drop_stale_length cutoff l : length (drop_stale cutoff l) ≤ length l.
Proof.
  induction l as [|x l IH]; simpl; [done|].
  destruct (timestamp x <? cutoff)%Z; simpl; lia.
Qed.

Lemma add_metric_enabled now n v u tgs m :
  enabled m = true →
  add_metric now n v u tgs m
  = with_metrics
      (deque_append (max_metrics m)
         {| name := n; value := v; unit := u; timestamp := now;
            tags := default ∅ tgs |} (metrics m)) m.
Proof. intros Hen. unfold add_metric. by rewrite Hen. Qed.

Lemma add_metric_disabled now n v u tgs m :
  enabled m = false → add_metric now n v u tgs m = m.
Proof. intros Hen. unfold add_metric. by rewrite Hen. Qed.

Lemma record_operation_enabled now n d ok m :
  enabled m = true →
  record_operation now n d ok m
  = add_metric now ("operation." +:+ n +:+ ".duration") d "seconds"
      (Some {["success" := str_bool ok]})
      (with_operation_stats
         (<[n := add_timing d ok
                   (default (new_stats n) (operation_stats m !! n))]>
            (operation_stats m)) m).
Proof.
  intros Hen. unfold record_operation. rewrite Hen. simpl.
  by destruct (operation_stats m !! n).
Qed.

Lemma record_operation_disabled now n d ok m :
  enabled m = false → record_operation now n d ok m = m.
Proof. intros Hen. unfold record_operation. by rewrite Hen. Qed.

Lemma max_metrics_event e m : max_metrics (do_event e m) = max_metrics m.
Proof.
  destruct e as [[now n d ok|now n v u tgs]|now|]; simpl; try done.
  - destruct (enabled m) eqn:Hen.
    + rewrite record_operation_enabled, add_metric_enabled by done. done.
    + by rewrite record_operation_disabled.
  - destruct (enabled m) eqn:Hen.
    + by rewrite add_metric_enabled.
    + by rewrite add_metric_disabled.
  - unfold _cleanup_old_metrics. by destruct (metrics m).
Qed.

Lemma add_metric_bounded now n v u tgs m :
  length (metrics m) ≤ max_metrics m →
  length (metrics (add_metric now n v u tgs m)) ≤ max_metrics m.
Proof.
  intros Hle. destruct (enabled m) eqn:Hen.
  - rewrite add_metric_enabled by done. simpl.
    rewrite deque_append_length. lia.
  - by rewrite add_metric_disabled.
Qed.

Lemma metrics_bounded_event e m :
  length (metrics m) ≤ max_metrics m →
  length (metrics (do_event e m)) ≤ max_metrics m.
Proof.
  intros Hle. destruct e as [[now n d ok|now n v u tgs]|now|]; simpl.
  - destruct (enabled m) eqn:Hen.
    + rewrite record_operation_enabled by done.
      by apply (add_metric_bounded _ _ _ _ _ (with_operation_stats _ m)).
    + by rewrite record_operation_disabled.
  - by apply add_metric_bounded.
  - unfold _cleanup_old_metrics. destruct (metrics m) as [|x l] eqn:Hm.
    + by rewrite Hm.
    + simpl in *. etrans; [apply (drop_stale_length _ (x :: l))|done].
  - lia.
Qed.

(** X15.  Whatever is fed to a recorder, cleaned up or reset, its log never
    holds more than [max_metrics] events. *)
Theorem metric_log_is_bounded (config : Config) (es : list recorder_event) :
  length (metrics (do_events es (__init__ config)))
  ≤ max_metrics (__init__ config).
Proof.
  assert (∀ m, length (metrics m) ≤ max_metrics m →
            length (metrics (do_events es m)) ≤ max_metrics m) as Hrun.
  { induction es as [|e es IH]; intros m Hm; [done|].
    simpl. rewrite <- (max_metrics_event e m). apply IH.
    rewrite max_metrics_event. by apply metrics_bounded_event. }
  apply Hrun. simpl. lia.
Qed.

Lemma emit_all_newest xs :
  ∀ m ys,
    enabled m = true →
    metrics m = drop (length ys - max_metrics m) ys →
    metrics (emit_all xs m)
    = drop (length (ys ++ xs) - max_metrics m) (ys ++ xs).
Proof.
  induction xs as [|x xs IH]; intros m ys Hen Hm.
  - by rewrite app_nil_r.
  - change (emit_all (x :: xs) m)
      with (emit_all xs (add_metric (timestamp x) (name x) (value x) (unit x)
                           (Some (tags x)) m)).
    replace (ys ++ x :: xs) with ((ys ++ [x]) ++ xs)
      by (by rewrite <- app_assoc).
    rewrite add_metric_enabled by done.
    rewrite (IH _ (ys ++ [x])); [done|done|]. simpl.
    rewrite Hm, deque_append_newest. by destruct x.
Qed.

(** X16.  The log of an enabled recorder that starts empty holds the newest
    [max_metrics] of the events emitted, in the order of their emission:
    all of them while there is room, and none when [max_metrics] is 0. *)
Theorem newest_metrics_are_kept (m : PerformanceMonitor)
    (xs : list PerformanceMetric) :
  enabled m = true →
  metrics m = [] →
  metrics (emit_all xs m) = drop (length xs - max_metrics m) xs.
Proof.
  intros Hen Hm. by apply (emit_all_newest xs m []).
Qed.

Lemma newest_metrics_are_kept_witness :
  enabled (__init__ tiny_log) = true
  ∧ metrics (__init__ tiny_log) = []
  ∧ metrics (emit_all three_metrics (__init__ tiny_log))
    = drop (length three_metrics - max_metrics (__init__ tiny_log))
        three_metrics.
Proof.
  assert (enabled (__init__ tiny_log) = true) as Hen by reflexivity.
  assert (metrics (__init__ tiny_log) = []) as Hm by reflexivity.
  split; [exact Hen|]. split; [exact Hm|].
  exact (newest_metrics_are_kept (__init__ tiny_log) three_metrics Hen Hm).
Defined.

(** ** The statistics of the operations *)

Lemma enabled_do_call c m : enabled (do_call c m) = enabled m.
Proof.
  destruct c as [now n d ok|now n v u tgs]; simpl;
    destruct (enabled m) eqn:Hen.
  - rewrite record_operation_enabled, add_metric_enabled by done. done.
  - by rewrite record_operation_disabled.
  - by rewrite add_metric_enabled.
  - by rewrite add_metric_disabled.
Qed.

Lemma operation_stats_add_metric now n v u tgs m :
  operation_stats (add_metric now n v u tgs m) = operation_stats m.
Proof. unfold add_metric. by destruct (enabled m). Qed.

Lemma operation_stats_record now n d ok m :
  enabled m = true →
  operation_stats (record_operation now n d ok m)
  = <[n := add_timing d ok (default (new_stats n) (operation_stats m !! n))]>
      (operation_stats m).
Proof.
  intros Hen. rewrite record_operation_enabled by done.
  by rewrite operation_stats_add_metric.
Qed.

Lemma add_timing_sound key d ok s0 :
  s0 = new_stats key ∨ stats_sound key s0 →
  stats_sound key (add_timing d ok s0).
Proof.
  intros [->|(Hn & Hc & H1 & Hr & Hmax & fastest & Hmin & Hle)].
  - split; [done|]. split; [by destruct ok|]. split; [simpl; lia|].
    split; [done|]. split; [apply Q.le_max_l|].
    exists d. split; [done|]. apply Q.le_max_r.
  - split; [done|]. split; [simpl; destruct ok; lia|]. split; [simpl; lia|].
    split; [simpl; rewrite deque_append_length; lia|].
    split; [simpl; eapply Qle_trans; [exact Hmax|apply Q.le_max_l]|].
    simpl. rewrite Hmin. eexists. split; [done|].
    eapply Qle_trans; [apply Q.le_min_r|apply Q.le_max_r].
Qed.

Lemma stats_sound_event e m :
  map_Forall stats_sound (operation_stats m) →
  map_Forall stats_sound (operation_stats (do_event e m)).
Proof.
  intros Hall. destruct e as [[now n d ok|now n v u tgs]|now|]; simpl.
  - destruct (enabled m) eqn:Hen.
    + rewrite operation_stats_record by done.
      apply map_Forall_insert_2; [|done]. apply add_timing_sound.
      destruct (operation_stats m !! n) as [s0|] eqn:Hs0; simpl.
      * right. by apply Hall.
      * by left.
    + by rewrite record_operation_disabled.
  - by rewrite operation_stats_add_metric.
  - unfold _cleanup_old_metrics. by destruct (metrics m).
  - apply map_Forall_empty.
Qed.

Lemma stats_sound_events es :
  ∀ m, map_Forall stats_sound (operation_stats m) →
       map_Forall stats_sound (operation_stats (do_events es m)).
Proof.
  induction es as [|e es IH]; intros m Hall; [done|].
  simpl. apply IH. by apply stats_sound_event.
Qed.

Lemma success_rate_fraction s :
  count s = success_count s + error_count s →
  1 ≤ count s →
  (0 <= success_rate s ∧ success_rate s <= 1)%Q.
Proof.
  intros Hc H1. unfold success_rate.
  assert ((0 <? count s) = true) as -> by (apply Nat.ltb_lt; lia).
  assert (0 < inject_Z (Z.of_nat (count s)))%Q as Hpos.
  { change 0%Q with (inject_Z 0). rewrite <- Zlt_Qlt. lia. }
  split.
  - apply Qle_shift_div_l; [done|]. rewrite Qmult_0_l.
    change 0%Q with (inject_Z 0). rewrite <- Zle_Qle. lia.
  - apply Qle_shift_div_r; [done|]. rewrite Qmult_1_l.
    rewrite <- Zle_Qle. lia.
Qed.

(** X17.  Whatever was fed to a recorder, cleaned up or reset before, the
    dictionary that [get_operation_stats] reports for an operation name
    carries that name, counts at least one timing, counts as many timings
    as successes and errors together, has its fastest time at most its
    slowest, and has a success rate between 0 and 1. *)
Theorem reported_statistics_are_consistent (config : Config)
    (es : list recorder_event) (key : string) (d : StatsDict) :
  get_operation_stats (Some key) (do_events es (__init__ config))
  = OneStats (Some d) →
  d_name d = key
  ∧ 1 ≤ d_count d
  ∧ d_count d = d_success_count d + d_error_count d
  ∧ (d_min_time d <= d_max_time d)%Q
  ∧ (0 <= d_success_rate d)%Q ∧ (d_success_rate d <= 1)%Q.
Proof.
  intros Hget. unfold get_operation_stats in Hget.
  destruct (negb (key =? ""))%string; [|done].
  injection Hget as Hget.
  destruct (operation_stats (do_events es (__init__ config)) !! key)
    as [s|] eqn:Hs; [|done].
  injection Hget as <-.
  assert (stats_sound key s) as (Hn & Hc & H1 & _ & _ & fastest & Hmin & Hle).
  { eapply (stats_sound_events es (__init__ config)); [|exact Hs].
    apply map_Forall_empty. }
  destruct (success_rate_fraction s Hc H1) as [H0 Hone].
  simpl. rewrite Hmin. done.
Qed.

Lemma reported_statistics_are_consistent_witness :
  ∃ d,
    get_operation_stats (Some "browser.click")
      (do_events (Feed <$> some_calls) (__init__ ∅))
    = OneStats (Some d)
    ∧ d_name d = "browser.click"
    ∧ 1 ≤ d_count d
    ∧ d_count d = d_success_count d + d_error_count d
    ∧ (d_min_time d <= d_max_time d)%Q
    ∧ (0 <= d_success_rate d)%Q ∧ (d_success_rate d <= 1)%Q.
Proof.
  eexists. 
  assert (get_operation_stats (Some "browser.click")
            (do_events (Feed <$> some_calls) (__init__ ∅))
          = OneStats (Some _)) as Hget by (vm_compute; reflexivity).
  split; [exact Hget|].
  exact (reported_statistics_are_consistent ∅ (Feed <$> some_calls)
           "browser.click" _ Hget).
Defined.

Lemma add_timings_cons t ts s :
  add_timings (t :: ts) s = add_timings ts (add_timing t.1 t.2 s).
Proof. done. Qed.

Lemma add_timings_summary ts :
  ∀ s ys,
    recent_times s = drop (length ys - 100) ys →
    let s' := add_timings ts s in
    op_name s' = op_name s
    ∧ count s' = count s + length ts
    ∧ success_count s' = success_count s + length (List.filter snd ts)
    ∧ error_count s'
      = error_count s + length (List.filter (λ t, negb t.2) ts)
    ∧ total_time s' = foldl Qplus (total_time s) ts.*1
    ∧ recent_times s' = drop (length (ys ++ ts.*1) - 100) (ys ++ ts.*1).
Proof.
  induction ts as [|[d ok] ts IH]; intros s ys Hr.
  - simpl. rewrite app_nil_r, !Nat.add_0_r. done.
  - destruct (IH (add_timing d ok s) (ys ++ [d])) as (Hn & Hc & Hs & He & Ht & Hrt).
    { simpl. rewrite Hr. apply deque_append_newest. }
    intros s'. subst s'. rewrite add_timings_cons.
    change ((d, ok).1) with d. change ((d, ok).2) with ok.
    set (s' := add_timings ts (add_timing d ok s)) in *. csimpl in *.
    replace (ys ++ d :: ts.*1) with ((ys ++ [d]) ++ ts.*1)
      by (by rewrite <- app_assoc).
    split; [done|]. split; [lia|].
    split; [destruct ok; simpl in *; lia|].
    split; [destruct ok; simpl in *; lia|]. done.
Qed.

(** X18.  The statistics of an operation after the timings [ts] were recorded
    one after the other in a fresh record: the count is their number, the
    success and the error count are the numbers of those that succeeded
    and failed, the total time is their sum from left to right, and the
    recent times are the last hundred of them in order. *)
Theorem timings_are_summarised (n : string) (ts : list (Q * bool)) :
  let s := add_timings ts (new_stats n) in
  op_name s = n
  ∧ count s = length ts
  ∧ success_count s = length (List.filter snd ts)
  ∧ error_count s = length (List.filter (λ t, negb t.2) ts)
  ∧ total_time s = Qsum ts.*1
  ∧ recent_times s = drop (length ts - 100) ts.*1.
Proof.
  destruct (add_timings_summary ts (new_stats n) []) as (Hn & Hc & Hs & He & Ht & Hr);
    [done|].
  simpl in *. rewrite length_fmap in Hr. done.
Qed.

Lemma add_timings_bounds ts :
  ∀ s d,
    d ∈ ts.*1 ∨
      (∃ lo, min_time s = Some lo ∧ (lo <= d)%Q ∧ (d <= max_time s)%Q) →
    ∃ fastest,
      min_time (add_timings ts s) = Some fastest
      ∧ (fastest <= d)%Q ∧ (d <= max_time (add_timings ts s))%Q.
Proof.
  induction ts as [|[d' ok] ts IH]; intros s d Hd.
  - destruct Hd as [Hd|Hd]; [by apply elem_of_nil in Hd|done].
  - rewrite add_timings_cons. apply IH. simpl.
    destruct Hd as [Hd|(lo & Hlo & H1 & H2)].
    + csimpl in Hd. apply elem_of_cons in Hd as [->|Hd]; [|by left].
      right. eexists. split; [done|]. split; [|apply Q.le_max_r].
      destruct (min_time s); [apply Q.le_min_r|apply Qle_refl].
    + right. eexists. split; [done|]. rewrite Hlo.
      split; [eapply Qle_trans; [apply Q.le_min_l|done]|].
      eapply Qle_trans; [exact H2|apply Q.le_max_l].
Qed.

(** X19.  Every duration recorded for an operation lies between the fastest and
    the slowest time of its statistics. *)
Theorem fastest_and_slowest_bound_every_timing (n : string)
    (ts : list (Q * bool)) (d : Q) :
  d ∈ ts.*1 →
  ∃ fastest,
    min_time (add_timings ts (new_stats n)) = Some fastest
    ∧ (fastest <= d)%Q
    ∧ (d <= max_time (add_timings ts (new_stats n)))%Q.
Proof.
  intros Hd. apply add_timings_bounds. by left.
Qed.

Lemma fastest_and_slowest_bound_every_timing_witness :
  (3 # 2)%Q ∈ two_timings.*1
  ∧ ∃ fastest,
      min_time (add_timings two_timings (new_stats "browser.click"))
      = Some fastest
      ∧ (fastest <= 3 # 2)%Q
      ∧ (3 # 2 <= max_time (add_timings two_timings (new_stats "browser.click")))%Q.
Proof.
  assert ((3 # 2)%Q ∈ two_timings.*1) as Hd.
  { simpl. apply elem_of_cons. right. apply elem_of_cons. by left. }
  split; [exact Hd|].
  exact (fastest_and_slowest_bound_every_timing "browser.click" two_timings
           (3 # 2)%Q Hd).
Defined.

Lemma do_calls_accumulate n cs :
  ∀ m,
    enabled m = true →
    operation_stats (do_calls cs m) !! n
    = match timings_of n cs with
      | [] => operation_stats m !! n
      | ts =>
          Some (add_timings ts
                  (default (new_stats n) (operation_stats m !! n)))
      end.
Proof.
  induction cs as [|c cs IH]; intros m Hen; [done|].
  change (do_calls (c :: cs) m) with (do_calls cs (do_call c m)).
  rewrite IH by (by rewrite enabled_do_call).
  destruct c as [now n' d ok|now n' v u tgs]; csimpl.
  - rewrite operation_stats_record by done.
    destruct (String.eqb_spec n' n) as [->|Hne]; csimpl.
    + rewrite lookup_insert_eq. simpl.
      by destruct (timings_of n cs).
    + by rewrite lookup_insert_ne.
  - by rewrite operation_stats_add_metric.
Qed.

(** X20.  The statistics that an enabled recorder keeps under a name after a
    run of calls are those of the timings recorded under that name, in
    the order of the calls, added to what the recorder held under the
    name before; calls under other names and metric events leave them
    alone. *)
Theorem record_operation_accumulates_per_name (m : PerformanceMonitor)
    (n : string) (cs : list recorder_call) :
  enabled m = true →
  operation_stats (do_calls cs m) !! n
  = match timings_of n cs with
    | [] => operation_stats m !! n
    | ts =>
        Some (add_timings ts (default (new_stats n) (operation_stats m !! n)))
    end.
Proof. apply do_calls_accumulate. Qed.

Lemma record_operation_accumulates_per_name_witness :
  enabled (__init__ ∅) = true
  ∧ operation_stats (do_calls some_calls (__init__ ∅)) !! "browser.click"
    = match timings_of "browser.click" some_calls with
      | [] => operation_stats (__init__ ∅) !! "browser.click"
      | ts =>
          Some (add_timings ts
                  (default (new_stats "browser.click")
                     (operation_stats (__init__ ∅) !! "browser.click")))
      end.
Proof.
  assert (enabled (__init__ ∅) = true) as Hen by reflexivity.
  split; [exact Hen|].
  exact (record_operation_accumulates_per_name (__init__ ∅) "browser.click"
           some_calls Hen).
Defined.

(** ** The retention of metric events *)

Lemma drop_stale_prefix cutoff l :
  ∃ dropped,
    l = dropped ++ drop_stale cutoff l
    ∧ Forall (stale cutoff) dropped
    ∧ ∀ x, head (drop_stale cutoff l) = Some x → (cutoff ≤ timestamp x)%Z.
Proof.
  induction l as [|x l (dropped & Hl & Hst & Hhd)]; simpl.
  - exists []. done.
  - destruct (timestamp x <? cutoff)%Z eqn:Hx.
    + exists (x :: dropped). split; [by rewrite Hl at 1|].
      split; [|done]. constructor; [|done]. unfold stale. lia.
    + exists []. split; [done|]. split; [done|].
      intros y [= <-]. lia.
Qed.

(** X21.  [_cleanup_old_metrics] removes from the front of the log a run of
    events that are all older than the retention period and stops at the
    first event that is not; the events behind it stay, in their order,
    whatever their age, and nothing else of the recorder changes. *)
Theorem cleanup_drops_the_stale_prefix (now : datetime)
    (m : PerformanceMonitor) :
  let m' := _cleanup_old_metrics now m in
  let cutoff_time := (now - hours (retention_hours m))%Z in
  (∃ dropped,
     metrics m = dropped ++ metrics m'
     ∧ Forall (stale cutoff_time) dropped)
  ∧ (∀ x, head (metrics m') = Some x → (cutoff_time ≤ timestamp x)%Z)
  ∧ operation_stats m' = operation_stats m
  ∧ enabled m' = enabled m
  ∧ max_metrics m' = max_metrics m
  ∧ retention_hours m' = retention_hours m.
Proof.
  simpl. unfold _cleanup_old_metrics.
  destruct (metrics m) as [|x l] eqn:Hm.
  - rewrite Hm. split; [by exists []|]. done.
  - destruct (drop_stale_prefix (now - hours (retention_hours m)) (x :: l))
      as (dropped & Hl & Hst & Hhd).
    split; [by exists dropped|]. done.
Qed.

Lemma drop_stale_sorted cutoff l :
  StronglySorted (λ x y, (timestamp x ≤ timestamp y)%Z) l →
  Forall (λ x, (cutoff ≤ timestamp x)%Z) (drop_stale cutoff l).
Proof.
  induction 1 as [|x l Hsorted IH Hall]; simpl; [done|].
  destruct (timestamp x <? cutoff)%Z eqn:Hx; [done|].
  constructor; [lia|].
  eapply Forall_impl; [exact Hall|]. simpl. intros y Hy. lia.
Qed.

(** X22.  When the events of the log are in the order of their timestamps,
    [_cleanup_old_metrics] leaves no event older than the retention
    period. *)
Theorem cleanup_of_ordered_log_leaves_fresh_events (now : datetime)
    (m : PerformanceMonitor) :
  StronglySorted (λ x y, (timestamp x ≤ timestamp y)%Z) (metrics m) →
  Forall (λ x, (now - hours (retention_hours m) ≤ timestamp x)%Z)
    (metrics (_cleanup_old_metrics now m)).
Proof.
  intros Hsorted. unfold _cleanup_old_metrics.
  destruct (metrics m) as [|x l] eqn:Hm.
  - by rewrite Hm.
  - by apply drop_stale_sorted.
Qed.

Lemma cleanup_of_ordered_log_leaves_fresh_events_witness :
  StronglySorted (λ x y, (timestamp x ≤ timestamp y)%Z)
    (metrics (logged three_metrics))
  ∧ Forall (λ x, (a_day_later - hours (retention_hours (logged three_metrics))
                  ≤ timestamp x)%Z)
      (metrics (_cleanup_old_metrics a_day_later (logged three_metrics))).
Proof.
  assert (StronglySorted (λ x y, (timestamp x ≤ timestamp y)%Z)
            (metrics (logged three_metrics))) as Hsorted.
  { vm_compute. repeat constructor; discriminate. }
  split; [exact Hsorted|].
  exact (cleanup_of_ordered_log_leaves_fresh_events a_day_later
           (logged three_metrics) Hsorted).
Defined.

(** ** Timed scopes *)

(** X23.  A call wrapped by [performance_metric], entered at a clock reading
    other than zero while the recorder is enabled, hands on what the
    function returned or raised, and adds exactly one timing to the
    statistics of one operation: a success when the function returned, an
    error when it raised.  The statistics of the other operations are
    those the function left. *)
Theorem decorated_call_is_recorded_once {A : Type}
    (operation_name : option string) (module_name func_name : string)
    (start_time end_time : Q) (now : datetime)
    (func : PerformanceMonitor → PerformanceMonitor * outcome A)
    (m : PerformanceMonitor) :
  enabled (func m).1 = true →
  Qeq_bool start_time 0 = false →
  let r := performance_metric operation_name module_name func_name
             start_time end_time now func m in
  let before := operation_stats (func m).1 in
  r.2 = (func m).2
  ∧ ∃ op s,
      operation_stats r.1 !! op = Some s
      ∧ count s = S (from_option count 0 (before !! op))
      ∧ success_count s
        = from_option success_count 0 (before !! op)
          + (if (func m).2 is Value _ then 1 else 0)
      ∧ error_count s
        = from_option error_count 0 (before !! op)
          + (if (func m).2 is Value _ then 0 else 1)
      ∧ ∀ n, n ≠ op → operation_stats r.1 !! n = before !! n.
Proof.
  intros Hen Hstart. simpl. unfold performance_metric, PerformanceTimer.
  destruct (func m) as [m1 res] eqn:Hf. simpl in *. rewrite Hstart. simpl.
  split; [done|]. eexists. eexists.
  rewrite operation_stats_record by done.
  split; [apply lookup_insert_eq|].
  split; [by destruct (operation_stats m1 !! _)|].
  split; [destruct (operation_stats m1 !! _), res; simpl; lia|].
  split; [destruct (operation_stats m1 !! _), res; simpl; lia|].
  intros n Hn. by rewrite lookup_insert_ne.
Qed.

Lemma decorated_call_is_recorded_once_witness :
  enabled (failing_body (__init__ ∅)).1 = true
  ∧ Qeq_bool 5 0 = false
  ∧ (performance_metric None "tv.core" "login" 5 7 9 failing_body
       (__init__ ∅)).2 = Exc TimeoutException
  ∧ ∃ op s,
      operation_stats
        (performance_metric None "tv.core" "login" 5 7 9 failing_body
           (__init__ ∅)).1 !! op = Some s
      ∧ count s = 1 ∧ success_count s = 0 ∧ error_count s = 1
      ∧ ∀ n, n ≠ op →
          operation_stats
            (performance_metric None "tv.core" "login" 5 7 9 failing_body
               (__init__ ∅)).1 !! n = None.
Proof.
  assert (enabled (failing_body (__init__ ∅)).1 = true) as Hen by reflexivity.
  assert (Qeq_bool 5 0 = false) as Hstart by reflexivity.
  split; [exact Hen|]. split; [exact Hstart|].
  exact (decorated_call_is_recorded_once None "tv.core" "login" 5 7 9
           failing_body (__init__ ∅) Hen Hstart).
Defined.

End RecorderLaws.


(** * Further properties of the retry primitive *)

Module RetryLaws.
Import TimingUtils.
Local Open Scope nat_scope.

Lemma retry_attempts_run {A : Type} (func : nat → outcome A)
    (exceptions : PyException → bool) (max_retries : nat) (delay : Q)
    (n : nat) :
  ∀ a last w,
    a + S n = max_retries + 1 →
    ∃ k,
      k ≤ n
      ∧ retry_attempts func exceptions max_retries delay (seq a (S n)) last w
        = ({| calls := calls w + k + 1;
              slept := slept w ++ replicate k delay |},
           func (calls w + k))
      ∧ (∀ j, j < k →
           ∃ e, func (calls w + j) = Exc e ∧ exceptions e = true)
      ∧ (k = n
         ∨ match func (calls w + k) with
           | Value _ => True
           | Exc e => exceptions e = false
           end).
Proof.
  induction n as [|n IH]; intros a last w Ha.
  - exists 0. split; [done|]. simpl. rewrite !Nat.add_0_r, app_nil_r.
    assert (call w = {| calls := calls w + 1; slept := slept w |}) as Hcall
      by (unfold call; f_equal; lia).
    split; [|split; [intros j Hj; lia|by left]].
    destruct (func (calls w)) as [v|e]; [by rewrite Hcall|].
    destruct (exceptions e); [|by rewrite Hcall].
    assert ((a <? max_retries) = false) as -> by (apply Nat.ltb_ge; lia).
    by rewrite Hcall.
  - change (seq a (S (S n))) with (a :: seq (S a) (S n)).
    cbn [retry_attempts].
    assert (call w = {| calls := calls w + 0 + 1;
                        slept := slept w ++ replicate 0 delay |}) as Hcall.
    { unfold call. simpl. rewrite app_nil_r. f_equal. lia. }
    destruct (func (calls w)) as [v|e] eqn:Hf.
    { exists 0. split; [lia|]. rewrite Nat.add_0_r at 2. rewrite Hf, <- Hcall.
      split; [done|]. split; [intros j Hj; lia|]. right.
      by rewrite Nat.add_0_r, Hf. }
    destruct (exceptions e) eqn:He.
    2:{ exists 0. split; [lia|]. rewrite Nat.add_0_r at 2. rewrite Hf, <- Hcall.
        split; [done|]. split; [intros j Hj; lia|]. right.
        by rewrite Nat.add_0_r, Hf. }
    assert ((a <? max_retries) = true) as -> by (apply Nat.ltb_lt; lia).
    destruct (IH (S a) (Some e) (sleep delay (call w)))
      as (k & Hk & Hrun & Hfail & Hstop); [lia|].
    cbn [sleep call calls slept] in Hrun, Hfail, Hstop.
    replace (S (calls w) + k) with (calls w + S k) in * by lia.
    exists (S k). split; [lia|]. rewrite Hrun.
    split; [|split].
    + f_equal. simpl. by rewrite <- app_assoc.
    + intros j Hj. destruct j as [|j].
      * exists e. by rewrite Nat.add_0_r.
      * destruct (Hfail j) as (e' & He' & Hret'); [lia|].
        exists e'. split; [|done]. rewrite <- He'. simpl. f_equal. lia.
    + destruct Hstop as [->|Hstop]; [by left|by right].
Qed.

(** X24.  Whatever the callable does, [retry_on_failure] calls it [k + 1] times
    for some [k ≤ max_retries], having slept [delay] after each of the
    first [k] calls and not after the last; the first [k] calls raised
    failures of the classes to catch; what it returns or raises is what
    the last call returned or raised; and it stops before the attempts
    are used up only when the last call returned or raised a failure of
    another class. *)
Theorem retry_on_failure_is_bounded {A : Type} (func : nat → outcome A)
    (max_retries : nat) (delay : Q) (exceptions : PyException → bool)
    (w : world) :
  ∃ k,
    k ≤ max_retries
    ∧ retry_on_failure func max_retries delay exceptions w
      = ({| calls := calls w + k + 1;
            slept := slept w ++ replicate k delay |},
         func (calls w + k))
    ∧ (∀ j, j < k → ∃ e, func (calls w + j) = Exc e ∧ exceptions e = true)
    ∧ (k = max_retries
       ∨ match func (calls w + k) with
         | Value _ => True
         | Exc e => exceptions e = false
         end).
Proof.
  unfold retry_on_failure.
  replace (max_retries + 1) with (S max_retries) by lia.
  apply retry_attempts_run. lia.
Qed.

End RetryLaws.


(** * Further properties of the browser pool of the fan-out *)

Module BrowserPoolLaws.
Import AsyncBrowser.
Local Open Scope nat_scope.

(** X25.  A browser handed back by [return_browser] is the one that the next
    [get_browser] hands out, without a call of the factory, and the pool
    is then as it was before. *)
Theorem returned_browser_is_handed_out_next
    (create_browser : nat → outcome WebDriver) (b : WebDriver)
    (m : AsyncBrowserManager) :
  get_browser create_browser (return_browser b m) = (m, Value b).
Proof.
  unfold get_browser, return_browser. simpl.
  rewrite reverse_app. simpl. rewrite reverse_involutive. by destruct m.
Qed.

Section Conservation.
Variable create_browser : nat → outcome WebDriver.
Variable create_alert : WebDriver → Config → outcome bool.
Implicit Types (m : AsyncBrowserManager)
  (ts : list (coro AsyncBrowserManager bool))
  (infos : list (list WebDriver * nat)).

Lemma browsers_made_S first n :
  browsers_made create_browser first (S n)
  = browsers_made create_browser first n
    ++ match create_browser (first + n) with
       | Value b => [b]
       | Exc _ => []
       end.
Proof.
  unfold browsers_made. rewrite seq_S, omap_app. f_equal. simpl.
  by destruct (create_browser (first + n)).
Qed.

Lemma concat_insert_perm {A : Type} (l : list (list A)) i old new :
  l !! i = Some old →
  concat (<[i := new]> l) ++ old ≡ₚ concat l ++ new.
Proof.
  revert i. induction l as [|x l IH]; intros [|i] Hi; simplify_eq/=.
  - by rewrite <- !app_assoc, (comm (++) (concat l) old),
      (comm (++) (concat l) new), !app_assoc, (comm (++) new old).
  - by rewrite <- !app_assoc, IH.
Qed.

Lemma sum_list_insert (l : list nat) i old new :
  l !! i = Some old →
  sum_list (<[i := new]> l) + old = sum_list l + new.
Proof.
  revert i. induction l as [|x l IH]; intros [|i] Hi; simplify_eq/=; [lia|].
  specialize (IH _ Hi). lia.
Qed.

Lemma conserved_start m0 alert_configs :
  conserved create_browser create_alert m0
    (m0, _create_single_alert create_browser create_alert <$> alert_configs).
Proof.
  exists ((λ _, ([], 0)) <$> alert_configs), 0. simpl.
  split; [|split; [lia|split; [lia|split]]].
  - apply Forall2_fmap, Forall2_same_length_lookup_2; [done|].
    intros i c c' Hc _. constructor.
  - apply Forall_fmap, Forall_forall. simpl. lia.
  - rewrite app_nil_r. assert (concat ((λ _ : Config, ([] : list WebDriver, 0)) <$> alert_configs).*1 = []) as ->; [|by rewrite app_nil_r].
    induction alert_configs as [|c cs IH]; [done|]. csimpl. exact IH.
Qed.

Lemma conserved_resume m0 i st :
  conserved create_browser create_alert m0 st →
  conserved create_browser create_alert m0 (resume i st).
Proof.
  destruct st as [m ts]. intros (infos & k & Hts & Hk & Hsum & Hone & Hperm).
  unfold resume. simpl in *.
  destruct (ts !! i) as [c|] eqn:Hi; [|by exists infos, k].
  destruct (Forall2_lookup_l _ _ _ _ _ Hts Hi) as (info & Hinfo & Htask).
  assert (infos.*1 !! i = Some info.1) as Hh
    by (by rewrite list_lookup_fmap, Hinfo).
  assert (infos.*2 !! i = Some info.2) as Ha
    by (by rewrite list_lookup_fmap, Hinfo).
  inversion Htask as [config Hc Hinf|b config Hc Hinf|b flag Hc Hinf|o Hc Hinf];
    subst c; simpl.
  - (* the task asks for a browser *)
    rewrite <- Hinf in Hh, Ha. simpl in Hh, Ha.
    unfold get_browser.
    destruct (reverse (_browser_pool m)) as [|b rest] eqn:Hpool; simpl.
    + assert (_browser_pool m = []) as Hnil.
      { by rewrite <- (reverse_involutive (_browser_pool m)), Hpool. }
      destruct (create_browser (created m)) as [b|e] eqn:Hcb.
      * exists (<[i := ([b], 1)]> infos), (S k). simpl.
        split; [apply Forall2_insert; [done|constructor]|].
        split; [lia|].
        rewrite !list_fmap_insert. simpl.
        pose proof (sum_list_insert _ _ _ 1 Ha) as Hs.
        split; [lia|].
        split; [apply Forall_insert; [done|simpl; lia]|].
        rewrite browsers_made_S, <- Hk, Hcb, app_assoc, <- Hperm.
        pose proof (concat_insert_perm _ _ _ [b] Hh) as Hc.
        rewrite app_nil_r in Hc. rewrite Hc. by rewrite app_assoc.
      * exists (<[i := ([], 1)]> infos), (S k). simpl.
        split; [apply Forall2_insert; [done|constructor]|].
        split; [lia|].
        rewrite !list_fmap_insert. simpl.
        pose proof (sum_list_insert _ _ _ 1 Ha) as Hs.
        split; [lia|].
        split; [apply Forall_insert; [done|simpl; lia]|].
        rewrite browsers_made_S, <- Hk, Hcb, app_nil_r, <- Hperm.
        pose proof (concat_insert_perm _ _ _ [] Hh) as Hc.
        rewrite !app_nil_r in Hc. by rewrite Hc.
    + assert (_browser_pool m = reverse rest ++ [b]) as Hsnoc.
      { rewrite <- (reverse_involutive (_browser_pool m)), Hpool.
        by rewrite reverse_cons. }
      exists (<[i := ([b], 1)]> infos), k. simpl.
      split; [apply Forall2_insert; [done|constructor]|].
      split; [done|].
      rewrite !list_fmap_insert. simpl.
      pose proof (sum_list_insert _ _ _ 1 Ha) as Hs.
      split; [lia|].
      split; [apply Forall_insert; [done|simpl; lia]|].
      rewrite <- Hperm, Hsnoc.
      pose proof (concat_insert_perm _ _ _ [b] Hh) as Hc.
      rewrite app_nil_r in Hc. rewrite Hc, <- !app_assoc.
      f_equiv. apply Permutation_app_comm.
  - (* the executor has run the alert creator *)
    exists (<[i := ([b], 1)]> infos), k. simpl.
    split; [apply Forall2_insert; [done|constructor]|].
    split; [done|].
    rewrite list_insert_id by (by rewrite Hinfo, Hinf).
    done.
  - (* the task hands its browser back *)
    rewrite <- Hinf in Hh, Ha. simpl in Hh, Ha.
    exists (<[i := ([], 1)]> infos), k. simpl.
    split; [apply Forall2_insert; [done|constructor]|].
    split; [done|].
    rewrite !list_fmap_insert. simpl.
    pose proof (sum_list_insert _ _ _ 1 Ha) as Hs.
    split; [lia|].
    split; [apply Forall_insert; [done|simpl; lia]|].
    rewrite <- Hperm.
    pose proof (concat_insert_perm _ _ _ [] Hh) as Hc.
    rewrite app_nil_r in Hc. rewrite <- Hc.
    by rewrite <- !app_assoc, (comm (++) [b]).
  - by exists infos, k.
Qed.

Lemma conserved_event_loop m0 schedule :
  ∀ st, conserved create_browser create_alert m0 st →
        conserved create_browser create_alert m0 (event_loop schedule st).
Proof.
  induction schedule as [|i schedule IH]; intros st Hst; [done|].
  simpl. apply IH. by apply conserved_resume.
Qed.

Lemma sum_list_bounded (l : list nat) :
  Forall (λ n, n ≤ 1) l → sum_list l ≤ length l.
Proof. induction 1; simpl; lia. Qed.

(** X26.  When a batch of alerts is done, whatever the order in which the
    event loop resumed its tasks, the pool holds the browsers it held
    before the batch and the browsers the factory made during it, each
    once: no browser is lost and none is in the pool twice.  The factory
    was asked at most once per alert. *)
Theorem batch_returns_every_browser (schedule : list nat)
    (alert_configs : list Config) (m m' : AsyncBrowserManager)
    (results : list (bool + PyException)) :
  create_alerts_batch create_browser create_alert schedule alert_configs m
  = (m', Some results) →
  ∃ k,
    created m' = created m + k
    ∧ k ≤ length alert_configs
    ∧ _browser_pool m'
      ≡ₚ _browser_pool m ++ browsers_made create_browser (created m) k.
Proof.
  unfold create_alerts_batch. intros [= <- Hgather].
  destruct (conserved_event_loop m schedule _
              (conserved_start m alert_configs))
    as (infos & k & Hts & Hk & Hsum & Hone & Hperm).
  set (st := event_loop schedule
               (m, _create_single_alert create_browser create_alert
                     <$> alert_configs)) in *.
  assert (length infos = length alert_configs) as Hlen.
  { rewrite <- (Forall2_length _ _ _ Hts).
    unfold st. rewrite FanOutProperties.event_loop_length. simpl.
    by rewrite length_fmap. }
  assert (concat infos.*1 = []) as Hnone.
  { apply mapM_Some in Hgather. clear -Hgather Hts.
    revert results Hgather.
    induction Hts as [|c info ts infos Hc Hts IH]; intros results Hg; [done|].
    inversion Hg as [|? r ? rs Hr Hrs]; subst. csimpl.
    rewrite (IH rs Hrs), app_nil_r.
    by inversion Hc; subst; simpl in *. }
  exists k. split; [done|]. split.
  - etrans; [exact Hsum|]. rewrite <- Hlen, <- (length_fmap snd).
    apply sum_list_bounded. by apply Forall_fmap.
  - by rewrite <- Hperm, Hnone, app_nil_r.
Qed.
End Conservation.

Lemma batch_returns_every_browser_witness :
  create_alerts_batch numbered_browsers alert_succeeds [0; 1; 0; 1; 1; 0]
    [∅; ∅] empty_manager
  = ({| _browser_pool := [101; 100]; created := 2 |},
     Some [inl true; inl true])
  ∧ ∃ k,
      2 = 0 + k
      ∧ k ≤ 2
      ∧ [101; 100] ≡ₚ [] ++ browsers_made numbered_browsers 0 k.
Proof.
  assert (create_alerts_batch numbered_browsers alert_succeeds
            [0; 1; 0; 1; 1; 0] [∅; ∅] empty_manager
          = ({| _browser_pool := [101; 100]; created := 2 |},
             Some [inl true; inl true])) as Hrun by reflexivity.
  split; [exact Hrun|].
  exact (batch_returns_every_browser numbered_browsers alert_succeeds
           [0; 1; 0; 1; 1; 0] [∅; ∅] empty_manager _ _ Hrun).
Defined.

End BrowserPoolLaws.
